(** * Cache replacement policies and endian packing of MIPT-MIPS

    A shallow embedding of [CacheReplacement.cpp] (exact LRU, tree based
    pseudo-LRU and the policy factory) and of [infra/endian.h] (packing and
    unpacking of integers to byte arrays), followed by the properties that
    the specification states about them. *)

From Stdlib Require Import ZArith NArith Lia String Ascii.
From stdpp Require Import gmap strings list.

Local Open Scope Z_scope.

(** ** Outcomes of a call

    A C++ call either returns, throws [CacheReplacementException], stops the
    process on a failed [assert] (assertions are taken as compiled in), runs
    into undefined behaviour, or has not finished within the fuel the model
    was given. *)

Inductive result (A : Type) : Type :=
| Ok (a : A)
| Throw (what : string)
| AssertFail
| Undefined
| OutOfFuel.

Arguments Ok {A} a.
Arguments Throw {A} what.
Arguments AssertFail {A}.
Arguments Undefined {A}.
Arguments OutOfFuel {A}.

Definition bind {A B : Type} (r : result A) (k : A -> result B) : result B :=
  match r with
  | Ok a => k a
  | Throw w => Throw w
  | AssertFail => AssertFail
  | Undefined => Undefined
  | OutOfFuel => OutOfFuel
  end.

Notation "'let*' x ':=' r 'in' k" := (bind r (fun x => k))
  (at level 10, x pattern, r at level 100, k at level 200).

(** [for ( size_t i = start; i < start + count; ++i) body] *)
Fixpoint for_upto {S : Type} (count : nat) (i : nat)
    (body : nat -> S -> S) (s : S) : S :=
  match count with
  | O => s
  | Datatypes.S count' => for_upto count' (Datatypes.S i) body (body i s)
  end.

(** Conversions between [int] (32 bits, two's complement) and
    [std::size_t] (64 bits). *)
Definition size_t_of_int (z : Z) : N := Z.to_N (z mod 2 ^ 64).

Definition int_of_size_t (n : N) : Z :=
  let r := Z.of_N n mod 2 ^ 32 in
  if r <? 2 ^ 31 then r else r - 2 ^ 32.

(** ** endian.h *)

Module Endian.
Section Packing.

(** [bytewidth<T>]: the number of bytes of the unsigned type [T];
    [macro.h], which declares it together with [Byte] and [unsign_t],
    is taken as a parameter. *)
Variable bytewidth : nat.

Definition CHAR_BIT : nat := 8.

Definition bitwidth : Z := Z.of_nat (bytewidth * CHAR_BIT).

(** Conversion of an integer to the unsigned type [T]. *)
Definition to_T (z : Z) : Z := z mod 2 ^ bitwidth.

(** [Byte( x)]: the low eight bits. *)
Definition Byte (z : Z) : Z := z mod 2 ^ 8.

(** [unsign_t<T>( b)] for a byte [b]. *)
Definition unsign_t (b : Z) : Z := to_T b.

(** [array[i]] of a [std::array<Byte, bytewidth<T>>]. *)
Definition at_index (array : list Z) (i : nat) : Z := nth i array 0.

(** The shift is evaluated after the integer promotions, in a type at least
    as wide as [T], and a byte shifted to a position below the width of [T]
    loses no bit there; the value is converted to [T] when it is assigned. *)
Definition pack_array_le (array : list Z) : Z :=
  for_upto (length array) 0
    (fun i value =>
       to_T (Z.lor value
               (Z.shiftl (unsign_t (at_index array i))
                         (Z.of_nat (i * CHAR_BIT)))))
    0.

Definition pack_array_be (array : list Z) : Z :=
  for_upto (length array) 0
    (fun i value =>
       to_T (Z.lor value
               (Z.shiftl (unsign_t (at_index array i))
                         (Z.of_nat ((length array - i - 1) * CHAR_BIT)))))
    0.

Definition unpack_array_le (value : Z) : list Z :=
  let array := replicate bytewidth 0 in
  for_upto (length array) 0
    (fun i array =>
       <[i := Byte (Z.shiftr value (Z.of_nat (i * CHAR_BIT)))]> array)
    array.

Definition unpack_array_be (value : Z) : list Z :=
  let array := replicate bytewidth 0 in
  for_upto (length array) 0
    (fun i array =>
       <[i := Byte (Z.shiftr value
                      (Z.of_nat ((length array - i - 1) * CHAR_BIT)))]> array)
    array.

(** [enum class Endian] and the two functions that choose by it. *)
Inductive Endian : Type := little | big.

Definition unpack_array (e : Endian) (value : Z) : list Z :=
  match e with
  | little => unpack_array_le value
  | big => unpack_array_be value
  end.

Definition pack_array (e : Endian) (array : list Z) : Z :=
  match e with
  | little => pack_array_le array
  | big => pack_array_be array
  end.

End Packing.
End Endian.

(** ** Exact LRU *)

Module LRUCacheInfo.

(** A [std::list<std::size_t>] is a sequence of heap cells.  A cell keeps
    its identity when it is spliced, and an iterator is the identity of
    the cell it points to, so the list is a sequence of pairs of a cell
    identity and the way stored there; [next_cell] is the identity the
    next allocated cell receives. *)
Abbreviation iterator := nat.

Record t : Type := mk {
  lru_list : list (iterator * N);
  lru_hash : gmap N iterator;
  ways : N;
  next_cell : iterator
}.

(** The ways of the list, head (most recently used) first. *)
Definition order (s : t) : list N := (lru_list s).*2.

(** [lru_list.push_front( way)] followed by
    [lru_hash.emplace( way, lru_list.begin())]; [emplace] leaves an
    existing entry as it is. *)
Definition emplace (way : N) (it : iterator) (h : gmap N iterator)
    : gmap N iterator :=
  match h !! way with
  | Some _ => h
  | None => <[way := it]> h
  end.

Definition push_front_emplace (way : N) (s : t) : t :=
  let it := next_cell s in
  {| lru_list := (it, way) :: lru_list s;
     lru_hash := emplace way it (lru_hash s);
     ways := ways s;
     next_cell := Datatypes.S it |}.

Definition LRUCacheInfo (ways : N) : result t :=
  if (ways =? 0)%N then AssertFail
  else
    Ok (for_upto (N.to_nat ways) 0
          (fun i s => push_front_emplace (N.of_nat i) s)
          {| lru_list := []; lru_hash := ∅; ways := ways; next_cell := 0%nat |}).

(** The cell an iterator points to, and the list without that cell. *)
Definition cell_of (it : iterator) (l : list (iterator * N))
    : option (iterator * N) :=
  head (filter (fun c => c.1 = it) l).

Definition unlink (it : iterator) (l : list (iterator * N))
    : list (iterator * N) :=
  filter (fun c => c.1 ≠ it) l.

(** [lru_list.splice( lru_list.begin(), lru_list, it)] *)
Definition splice_begin (it : iterator) (l : list (iterator * N))
    : result (list (iterator * N)) :=
  match cell_of it l with
  | Some c => Ok (c :: unlink it l)
  | None => Undefined
  end.

(** [lru_list.splice( lru_list.end(), lru_list, it)] *)
Definition splice_end (it : iterator) (l : list (iterator * N))
    : result (list (iterator * N)) :=
  match cell_of it l with
  | Some c => Ok (unlink it l ++ [c])
  | None => Undefined
  end.

Definition touch (way : N) (s : t) : result t :=
  match lru_hash s !! way with
  | None => AssertFail
  | Some it =>
      let* l := splice_begin it (lru_list s) in
      Ok {| lru_list := l; lru_hash := lru_hash s;
            ways := ways s; next_cell := next_cell s |}
  end.

Definition set_to_erase (way : N) (s : t) : result t :=
  match lru_hash s !! way with
  | None => AssertFail
  | Some it =>
      let* l := splice_end it (lru_list s) in
      Ok {| lru_list := l; lru_hash := lru_hash s;
            ways := ways s; next_cell := next_cell s |}
  end.

Definition update (s : t) : result (t * N) :=
  match last (lru_list s) with
  | None => Undefined
  | Some (_, lru_elem) =>
      let l := removelast (lru_list s) in
      let ptr := next_cell s in
      Ok ({| lru_list := (ptr, lru_elem) :: l;
             lru_hash := <[lru_elem := ptr]> (lru_hash s);
             ways := ways s;
             next_cell := Datatypes.S ptr |}, lru_elem)
  end.

Definition erase_lru_element (s : t) : result t :=
  match last (lru_list s) with
  | None => Undefined
  | Some (_, lru_elem) =>
      Ok {| lru_list := removelast (lru_list s);
            lru_hash := delete lru_elem (lru_hash s);
            ways := ways s;
            next_cell := next_cell s |}
  end.

Definition allocate (way : N) (s : t) : result t :=
  let* s1 := (if (ways s <=? N.of_nat (size (lru_hash s)))%N
              then erase_lru_element s else Ok s) in
  Ok (push_front_emplace way s1).

Definition get_ways (s : t) : N := ways s.

(** [count] consecutive calls of [update], with the ways they return. *)
Fixpoint updates (count : nat) (s : t) : result (t * list N) :=
  match count with
  | O => Ok (s, [])
  | Datatypes.S count' =>
      let* (s1, way) := update s in
      let* (s2, rest) := updates count' s1 in
      Ok (s2, way :: rest)
  end.

(** The calls a client makes between construction and a later state. *)
Inductive call : Type :=
| Touch (way : N)
| SetToErase (way : N)
| Allocate (way : N)
| Update.

Definition run (c : call) (s : t) : result t :=
  match c with
  | Touch way => touch way s
  | SetToErase way => set_to_erase way s
  | Allocate way => allocate way s
  | Update => let* (s', _) := update s in Ok s'
  end.

Definition tracked (way : N) (s : t) : Prop := is_Some (lru_hash s !! way).

(** [touch] and [set_to_erase] are called on tracked ways only. *)
Definition permitted (c : call) (s : t) : Prop :=
  match c with
  | Touch way | SetToErase way => tracked way s
  | Allocate _ | Update => True
  end.

(** In addition, [allocate] is called with a way that is not tracked, or
    that is the least recently used way of a full policy (the way the
    call evicts first). *)
Definition tail_way (s : t) : option N := snd <$> last (lru_list s).

Definition permitted_fresh (c : call) (s : t) : Prop :=
  match c with
  | Touch way | SetToErase way => tracked way s
  | Allocate way =>
      ¬ tracked way s ∨
      ((ways s <= N.of_nat (size (lru_hash s)))%N ∧ tail_way s = Some way)
  | Update => True
  end.

Inductive reachable (pre : call -> t -> Prop) (n : N) : t -> Prop :=
| reachable_new s :
    LRUCacheInfo n = Ok s -> reachable pre n s
| reachable_call s c s' :
    reachable pre n s -> pre c s -> run c s = Ok s' -> reachable pre n s'.

(** The consistency of the list and the map that the specification asks
    for. *)
Definition occurrences (way : N) (s : t) : nat :=
  length (filter (fun c => c.2 = way) (lru_list s)).

Record consistent (s : t) : Prop := {
  hash_in_list : forall way it,
    lru_hash s !! way = Some it ->
    (it, way) ∈ lru_list s ∧ occurrences way s = 1%nat;
  list_in_hash : forall it way,
    (it, way) ∈ lru_list s -> lru_hash s !! way = Some it;
  no_duplicates : NoDup (order s);
  bounded : (N.of_nat (length (lru_list s)) <= ways s)%N
}.

(** The invariant that the proofs carry through the calls: cells and ways
    are unique, the map holds exactly the cells of the list, every cell was
    allocated before [next_cell], and the policy is full. *)
Record well_formed (s : t) : Prop := {
  wf_cells : NoDup (lru_list s).*1;
  wf_ways : NoDup (order s);
  wf_hash : forall way it,
    lru_hash s !! way = Some it <-> (it, way) ∈ lru_list s;
  wf_next : forall c, c ∈ lru_list s -> (c.1 < next_cell s)%nat;
  wf_size : size (lru_hash s) = length (lru_list s)
}.

Definition full (s : t) : Prop := N.of_nat (length (lru_list s)) = ways s.

(** The calls that move ways within the list and never replace one:
    everything but [allocate]. *)
Definition permitted_in_place (c : call) (s : t) : Prop :=
  match c with
  | Touch way | SetToErase way => tracked way s
  | Allocate _ => False
  | Update => True
  end.

(** The state after [LRUCacheInfo( 3)]. *)
Definition three_ways : t :=
  {| lru_list := [(2%nat, 2%N); (1%nat, 1%N); (0%nat, 0%N)];
     lru_hash := <[2%N := 2%nat]> (<[1%N := 1%nat]> (<[0%N := 0%nat]> ∅));
     ways := 3;
     next_cell := 3 |}.

(** The state after [LRUCacheInfo( 2)] and [allocate( 5)]. *)
Definition two_ways_then_allocate_5 : t :=
  {| lru_list := [(2%nat, 5%N); (1%nat, 1%N)];
     lru_hash := <[5%N := 2%nat]> (<[1%N := 1%nat]> ∅);
     ways := 2;
     next_cell := 3 |}.

End LRUCacheInfo.

(** ** Pseudo LRU *)

Module Pseudo_LRUCacheInfo.

(** [struct node]: [operator==] and [operator<] compare [value] only. *)
Record node : Type := mk_node { value : Z; pointer : N }.

Definition node_eqb (lhs rhs : node) : bool := value lhs =? value rhs.
Definition node_ltb (lhs rhs : node) : bool := value lhs <? value rhs.

(** [enum flags] *)
Definition Left : Z := 0.
Definition Right : Z := 1.

(** Modelled from the spec: the container [core::tree] of [tree.h] is not
    part of the sources.  A tree node carries its data and its children in
    sibling order; [insert] places a new child after the siblings that are
    not greater; an iterator is the path of child positions that leads
    from the node back to the root (the root iterator is the empty path),
    so [out] drops the first step, [level] is the length of the path, and
    [begin] and [++begin] are the first and the second child;
    [tree_find_depth] searches the descendants depth first, in sibling
    order, with [operator==], and yields the end iterator when nothing
    matches. *)
#[warnings="-register-all"] Inductive tree : Type :=
| Tree (data : node) (children : list tree).

Definition data (t : tree) : node := match t with Tree d _ => d end.
Definition children (t : tree) : list tree := match t with Tree _ cs => cs end.

Definition iterator : Type := list nat.

Definition get_tree_iterator : iterator := [].
Definition out (i : iterator) : iterator := tail i.
Definition level (i : iterator) : nat := length i.

Fixpoint subtree_from_root (path : list nat) (t : tree) : option tree :=
  match path with
  | [] => Some t
  | k :: path' =>
      match children t !! k with
      | Some c => subtree_from_root path' c
      | None => None
      end
  end.

Definition subtree (i : iterator) (t : tree) : option tree :=
  subtree_from_root (rev i) t.

Definition data_at (i : iterator) (t : tree) : option node :=
  data <$> subtree i t.

Fixpoint alter_from_root (f : node -> node) (path : list nat) (t : tree)
    : tree :=
  match path with
  | [] => Tree (f (data t)) (children t)
  | k :: path' =>
      Tree (data t) (alter (alter_from_root f path') k (children t))
  end.

Definition set_pointer (i : iterator) (p : N) (t : tree) : tree :=
  alter_from_root (fun d => {| value := value d; pointer := p |}) (rev i) t.

Fixpoint insert (c : tree) (siblings : list tree) : list tree :=
  match siblings with
  | [] => [c]
  | s :: siblings' =>
      if node_ltb (data c) (data s) then c :: s :: siblings'
      else s :: insert c siblings'
  end.

Fixpoint find_depth_from_root (x : node) (t : tree) : option (list nat) :=
  match t with
  | Tree _ cs =>
      (fix among (cs : list tree) (k : nat) : option (list nat) :=
         match cs with
         | [] => None
         | c :: cs' =>
             if node_eqb x (data c) then Some [k]
             else match find_depth_from_root x c with
                  | Some path => Some (k :: path)
                  | None => among cs' (Datatypes.S k)
                  end
         end) cs 0%nat
  end.

Definition tree_find_depth (x : node) (t : tree) : option iterator :=
  @rev nat <$> find_depth_from_root x t.

Record t : Type := mk {
  lru_tree : tree;
  ways : N;
  leaf_iterator : Z;
  node_iterator : Z
}.

Definition INT8_MIN : Z := -128.

(** The loop of [calculate_depth], entered with the current [i] and
    [numerator]; one unit of fuel pays for one iteration. *)
Fixpoint calculate_depth_loop (fuel : nat) (i numerator : N) : result N :=
  if (numerator =? 1)%N then Ok i
  else
    match fuel with
    | O => OutOfFuel
    | Datatypes.S fuel' =>
        if negb (numerator mod 2 =? 0)%N
        then Throw "Number of ways must be the power of 2!"
        else calculate_depth_loop fuel' ((i + 1) mod 2 ^ 64)%N
                                 (numerator / 2)%N
    end.

Definition calculate_depth (fuel : nat) (ways : N) : result N :=
  calculate_depth_loop fuel 0%N ways.

(** [construct_tree( node_it, max_depth)] builds the subtree below the
    node that holds [d]; [below] is [max_depth - node_it.level()], so
    [node_it.level() < max_depth] reads [below <> 0] and
    [node_it.level() != max_depth - 1] reads [below <> 1].  The two
    counters [leaf_iterator] and [node_iterator] are threaded through the
    calls in the order the code increments them; they are [int]s that stay
    far from overflow for every tree that fits in memory. *)
Fixpoint construct_tree (below : nat) (d : node) (counters : Z * Z)
    : tree * (Z * Z) :=
  let '(leaf_it, node_it) := counters in
  match below with
  | O => (Tree d [], counters)
  | Datatypes.S below' =>
      match below' with
      | Datatypes.S _ =>
          let left_d := {| value := node_it; pointer := size_t_of_int Left |} in
          let right_d :=
            {| value := node_it + 1; pointer := size_t_of_int Left |} in
          let '(left_t, counters1) :=
            construct_tree below' left_d (leaf_it, node_it + 2) in
          let '(right_t, counters2) :=
            construct_tree below' right_d counters1 in
          (Tree d (insert right_t (insert left_t [])), counters2)
      | O =>
          let first := Tree {| value := leaf_it; pointer := 0 |} [] in
          let second := Tree {| value := leaf_it + 1; pointer := 0 |} [] in
          (Tree d (insert second (insert first [])), (leaf_it + 2, node_it))
      end
  end.

Definition Pseudo_LRUCacheInfo (fuel : nat) (ways : N) : result t :=
  let root := {| value := INT8_MIN; pointer := 0 |} in
  let* depth := calculate_depth fuel ways in
  let '(tr, (leaf_it, node_it)) :=
    construct_tree (N.to_nat depth) root (0, INT8_MIN) in
  Ok {| lru_tree := tr; ways := ways;
        leaf_iterator := leaf_it; node_iterator := node_it |}.

Definition reverse_flag (flag : Z) : Z :=
  if flag =? Left then Right else Left.

(** [which_sibling]: [%] truncates towards zero, as [Z.rem] does. *)
Definition which_sibling (d : node) : N :=
  if Z.rem (value d) 2 =? 0 then size_t_of_int Left else size_t_of_int Right.

(** The loop of [touch]: from [i] up to the root. *)
Fixpoint touch_loop (i : iterator) (tr : tree) : result tree :=
  match i with
  | [] => Ok tr
  | _ :: parent =>
      match data_at i tr, data_at parent tr with
      | Some d, Some pd =>
          let tr' :=
            if (which_sibling d =? pointer pd)%N
            then set_pointer parent
                   (size_t_of_int (reverse_flag (int_of_size_t (pointer pd))))
                   tr
            else tr in
          touch_loop parent tr'
      | _, _ => Undefined
      end
  end.

Definition touch (way : N) (s : t) : result t :=
  match tree_find_depth {| value := int_of_size_t way; pointer := 0 |}
          (lru_tree s) with
  | None => Undefined
  | Some found_it =>
      let* tr := touch_loop found_it (lru_tree s) in
      Ok {| lru_tree := tr; ways := ways s;
            leaf_iterator := leaf_iterator s;
            node_iterator := node_iterator s |}
  end.

(** The loop of [update]: follow the flags from [tr], reached by
    [node_it], down to a node without children. *)
Fixpoint descend (tr : tree) (node_it : iterator) : result iterator :=
  match tr with
  | Tree d [] => Ok node_it
  | Tree d (first :: rest) =>
      if (pointer d =? size_t_of_int Left)%N
      then descend first (0%nat :: node_it)
      else match rest with
           | second :: _ => descend second (1%nat :: node_it)
           | [] => Undefined
           end
  end.

(** The way [update] is about to return: the value of the node the
    descent ends at, converted to [std::size_t]. *)
Definition victim (s : t) : result N :=
  let* node_it := descend (lru_tree s) get_tree_iterator in
  match data_at node_it (lru_tree s) with
  | Some d => Ok (size_t_of_int (value d))
  | None => Undefined
  end.

Definition update (s : t) : result (t * N) :=
  let* way := victim s in
  let* s' := touch way s in
  Ok (s', way).

Definition set_to_erase (way : N) (s : t) : result t :=
  Throw "Set_to_erase method is not supposed to be used in perfomance simulation".

Definition allocate (way : N) (s : t) : result t :=
  Throw "Allocate method is not supposed to be used in perfomance simulation".

Definition get_ways (s : t) : N := ways s.


(** A perfect binary tree of depth [depth] whose leaves are labelled
    [first], [first + 1], ... from left to right, whose flags are [Left] or
    [Right], and in which [which_sibling] tells the first child from the
    second. *)
Fixpoint shape (depth : nat) (first : Z) (tr : tree) : Prop :=
  match depth with
  | O => children tr = [] ∧ value (data tr) = first
  | Datatypes.S depth' =>
      (pointer (data tr) = 0%N ∨ pointer (data tr) = 1%N)
      ∧ exists l r,
          children tr = [l; r]
          ∧ which_sibling (data l) = 0%N ∧ which_sibling (data r) = 1%N
          ∧ shape depth' first l
          ∧ shape depth' (first + 2 ^ Z.of_nat depth') r
  end.

(** The value of every node that has children is below the labels of the
    leaves under it, so that [tree_find_depth] does not take such a node for
    a leaf: the search meets it only when it looks for one of those labels
    or for a greater one. *)
Fixpoint ids_low (depth : nat) (first : Z) (tr : tree) : Prop :=
  match depth with
  | O => True
  | Datatypes.S depth' =>
      value (data tr) < first
      ∧ forall l r,
          children tr = [l; r] ->
          ids_low depth' first l
          ∧ ids_low depth' (first + 2 ^ Z.of_nat depth') r
  end.

(** Every flag is [Left], as after construction. *)
Fixpoint all_left (depth : nat) (tr : tree) : Prop :=
  match depth with
  | O => True
  | Datatypes.S depth' =>
      pointer (data tr) = 0%N
      ∧ forall c, c ∈ children tr -> all_left depth' c
  end.

(** The path from the root of a tree of depth [depth] to its leaf number
    [offset], counted from the left. *)
Fixpoint leaf_path (depth : nat) (offset : Z) : list nat :=
  match depth with
  | O => []
  | Datatypes.S depth' =>
      if offset <? 2 ^ Z.of_nat depth'
      then 0%nat :: leaf_path depth' offset
      else 1%nat :: leaf_path depth' (offset - 2 ^ Z.of_nat depth')
  end.

(** The tree in which every flag on [path] points away from [path]. *)
Fixpoint mark (path : list nat) (tr : tree) : tree :=
  match path with
  | [] => tr
  | b :: path' =>
      Tree {| value := value (data tr); pointer := N.of_nat (1 - b) |}
           (alter (mark path') b (children tr))
  end.

(** The step of the loop of [touch] that reaches the node [d] from its
    child [c]. *)
Definition flag_after_child (d : node) (c : tree) : node :=
  if (which_sibling (data c) =? pointer d)%N
  then {| value := value d;
          pointer := size_t_of_int (reverse_flag (int_of_size_t (pointer d))) |}
  else d.

(** The calls a client makes on a pseudo LRU policy (the other two
    throw). *)
Inductive call : Type :=
| Touch (way : N)
| Update.

Definition run (c : call) (s : t) : result t :=
  match c with
  | Touch way => touch way s
  | Update => let* (s', _) := update s in Ok s'
  end.

(** [touch] is called with a way index below [ways]. *)
Definition permitted (c : call) (s : t) : Prop :=
  match c with
  | Touch way => (way < ways s)%N
  | Update => True
  end.

Inductive reachable (n : N) : t -> Prop :=
| reachable_new fuel s :
    Pseudo_LRUCacheInfo fuel n = Ok s -> reachable n s
| reachable_call s c s' :
    reachable n s -> permitted c s -> run c s = Ok s' -> reachable n s'.

(** The policy [s] with another tree. *)
Definition with_tree (s : t) (tr : tree) : t :=
  {| lru_tree := tr; ways := ways s;
     leaf_iterator := leaf_iterator s; node_iterator := node_iterator s |}.

(** [count] consecutive calls of [update], with the ways they return. *)
Fixpoint updates (count : nat) (s : t) : result (t * list N) :=
  match count with
  | O => Ok (s, [])
  | Datatypes.S count' =>
      let* (s1, way) := update s in
      let* (s2, rest) := updates count' s1 in
      Ok (s2, way :: rest)
  end.

(** What [update] does to a tree of depth [depth], told from the root
    down: it follows the flag of the root into one child, turns that flag
    to the other child, and goes on in the child it entered; the label of
    the leaf it ends at is the way it returns. *)
Fixpoint tree_update (depth : nat) (tr : tree) : tree * Z :=
  match depth with
  | O => (tr, value (data tr))
  | Datatypes.S depth' =>
      match children tr with
      | [l; r] =>
          if (pointer (data tr) =? 0)%N
          then let '(l', v) := tree_update depth' l in
               (Tree {| value := value (data tr); pointer := 1 |} [l'; r], v)
          else let '(r', v) := tree_update depth' r in
               (Tree {| value := value (data tr); pointer := 0 |} [l; r'], v)
      | _ => (tr, value (data tr))
      end
  end.

Fixpoint tree_updates (depth count : nat) (tr : tree) : tree * list Z :=
  match count with
  | O => (tr, [])
  | Datatypes.S count' =>
      let '(tr1, v) := tree_update depth tr in
      let '(tr2, vs) := tree_updates depth count' tr1 in
      (tr2, v :: vs)
  end.

(** The order in which a tree with all flags [Left] hands out its leaves:
    alternately one of the left and one of the right half, each half in
    its own order of the same kind. *)
Fixpoint interleave (xs ys : list Z) : list Z :=
  match xs, ys with
  | x :: xs', y :: ys' => x :: y :: interleave xs' ys'
  | _, _ => xs ++ ys
  end.

Fixpoint bit_reversed (depth : nat) (first : Z) : list Z :=
  match depth with
  | O => [first]
  | Datatypes.S depth' =>
      interleave (bit_reversed depth' first)
                 (bit_reversed depth' (first + 2 ^ Z.of_nat depth'))
  end.

(** The state after [Pseudo_LRUCacheInfo( 4)]. *)
Definition four_ways : t :=
  {| lru_tree :=
       Tree {| value := -128; pointer := 0 |}
         [Tree {| value := -128; pointer := 0 |}
            [Tree {| value := 0; pointer := 0 |} [];
             Tree {| value := 1; pointer := 0 |} []];
          Tree {| value := -127; pointer := 0 |}
            [Tree {| value := 2; pointer := 0 |} [];
             Tree {| value := 3; pointer := 0 |} []]];
     ways := 4;
     leaf_iterator := 4;
     node_iterator := -126 |}.

End Pseudo_LRUCacheInfo.

(** ** The interface and the factory *)

Class CacheReplacementInterface (T : Type) : Type := {
  touch : N -> T -> result T;
  set_to_erase : N -> T -> result T;
  allocate : N -> T -> result T;
  update : T -> result (T * N);
  get_ways : T -> N
}.

#[export] Instance LRU_interface : CacheReplacementInterface LRUCacheInfo.t := {
  touch := LRUCacheInfo.touch;
  set_to_erase := LRUCacheInfo.set_to_erase;
  allocate := LRUCacheInfo.allocate;
  update := LRUCacheInfo.update;
  get_ways := LRUCacheInfo.get_ways
}.

#[export] Instance Pseudo_LRU_interface
    : CacheReplacementInterface Pseudo_LRUCacheInfo.t := {
  touch := Pseudo_LRUCacheInfo.touch;
  set_to_erase := Pseudo_LRUCacheInfo.set_to_erase;
  allocate := Pseudo_LRUCacheInfo.allocate;
  update := Pseudo_LRUCacheInfo.update;
  get_ways := Pseudo_LRUCacheInfo.get_ways
}.

(** What a [std::unique_ptr<CacheReplacementInterface>] from the factory
    points to. *)
Inductive CacheReplacement : Type :=
| LRU (s : LRUCacheInfo.t)
| Pseudo_LRU (s : Pseudo_LRUCacheInfo.t).

Definition quote : string := String "034"%char EmptyString.
Definition newline : string := String "010"%char EmptyString.

Definition not_defined_message (name : string) : string :=
  quote +:+ name +:+ quote
  +:+ " replacement policy is not defined, supported polices are:"
  +:+ newline +:+ "LRU" +:+ newline +:+ "pseudo-LRU" +:+ newline.

Definition create_cache_replacement (fuel : nat) (name : string) (ways : N)
    : result CacheReplacement :=
  if String.eqb name "LRU" then
    let* s := LRUCacheInfo.LRUCacheInfo ways in Ok (LRU s)
  else if String.eqb name "Pseudo-LRU" then
    let* s := Pseudo_LRUCacheInfo.Pseudo_LRUCacheInfo fuel ways in
    Ok (Pseudo_LRU s)
  else Throw (not_defined_message name).

(** [needle] occurs in [text]. *)
Fixpoint occurs_in (needle text : string) : bool :=
  String.prefix needle text
  || match text with
     | EmptyString => false
     | String _ text' => occurs_in needle text'
     end.

Definition is_power_of_two (n : N) : Prop := exists k : N, n = (2 ^ k)%N.

(** * Properties *)

(** ** Loops *)

Lemma for_upto_invariant {S : Type} (P : nat -> S -> Prop)
    (body : nat -> S -> S) (count : nat) :
  forall (i : nat) (s : S),
    P i s ->
    (forall j s', (i <= j < i + count)%nat -> P j s' ->
                  P (Datatypes.S j) (body j s')) ->
    P (i + count)%nat (for_upto count i body s).
Proof.
  induction count as [|count IH]; intros i s Hs Hstep; simpl.
  - by rewrite Nat.add_0_r.
  - replace (i + Datatypes.S count)%nat with (Datatypes.S i + count)%nat by lia.
    apply IH.
    + apply Hstep; [lia | done].
    + intros j s' Hj. apply Hstep. lia.
Qed.

(** ** endian.h: packing what was unpacked *)

Section Round_trip.

Variable bytewidth : nat.

Abbreviation bits := (Endian.bitwidth bytewidth).

Lemma bits_nonneg : 0 <= bits.
Proof. unfold Endian.bitwidth. lia. Qed.

Lemma testbit_in_range (v j : Z) :
  0 <= v < 2 ^ bits -> Z.testbit v j = (j <? bits) && Z.testbit v j.
Proof.
  intros Hv. rewrite <- Z.testbit_mod_pow2 by apply bits_nonneg.
  by rewrite Z.mod_small.
Qed.

Ltac bit_cases :=
  repeat match goal with
         | |- context [ (?a <? ?b) ] => destruct (Z.ltb_spec a b)
         | |- context [ (?a <=? ?b) ] => destruct (Z.leb_spec a b)
         end;
  simpl; try rewrite ?andb_false_r, ?orb_false_r; try done; try lia.

(** The byte that both loops exchange for position [shift]. *)
Lemma byte_bit (v : Z) (shift : nat) (i : Z) :
  (shift + 8 <= bytewidth * 8)%nat -> 0 <= i ->
  Z.testbit
    (Z.shiftl (Endian.unsign_t bytewidth
                 (Endian.Byte (Z.shiftr v (Z.of_nat shift))))
              (Z.of_nat shift)) i
  = (Z.of_nat shift <=? i) && (i <? Z.of_nat shift + 8) && Z.testbit v i.
Proof.
  intros Hs Hi.
  unfold Endian.unsign_t, Endian.to_T, Endian.Byte.
  destruct (Z.leb_spec (Z.of_nat shift) i) as [Hle|Hlt]; simpl.
  - rewrite Z.shiftl_spec by done.
    rewrite Z.testbit_mod_pow2 by apply bits_nonneg.
    rewrite Z.testbit_mod_pow2 by lia.
    rewrite Z.shiftr_spec by lia.
    replace (i - Z.of_nat shift + Z.of_nat shift) with i by lia.
    unfold Endian.bitwidth, Endian.CHAR_BIT. bit_cases.
  - by rewrite Z.shiftl_spec_low.
Qed.

Lemma unpack_array_le_spec (v : Z) :
  length (Endian.unpack_array_le bytewidth v) = bytewidth ∧
  forall i, (i < bytewidth)%nat ->
    Endian.at_index (Endian.unpack_array_le bytewidth v) i
    = Endian.Byte (Z.shiftr v (Z.of_nat (i * Endian.CHAR_BIT))).
Proof.
  unfold Endian.unpack_array_le. rewrite length_replicate.
  pose (P := fun (k : nat) (a : list Z) =>
    length a = bytewidth ∧
    forall i, (i < k)%nat ->
      Endian.at_index a i
      = Endian.Byte (Z.shiftr v (Z.of_nat (i * Endian.CHAR_BIT)))).
  assert (H : P (0 + bytewidth)%nat
                (for_upto bytewidth 0
                   (fun i array =>
                      <[i := Endian.Byte
                               (Z.shiftr v (Z.of_nat (i * Endian.CHAR_BIT)))]>
                        array)
                   (replicate bytewidth 0))).
  { apply for_upto_invariant.
    - split; [apply length_replicate | intros; lia].
    - intros j a Hj [Hlen Ha]. split; [by rewrite length_insert|].
      intros i Hi. unfold Endian.at_index.
      destruct (decide (i = j)) as [->|Hne].
      + apply nth_lookup_Some. apply list_lookup_insert_eq. lia.
      + rewrite nth_lookup, list_lookup_insert_ne, <- nth_lookup by done.
        apply Ha. lia. }
  exact H.
Qed.

Lemma unpack_array_be_spec (v : Z) :
  length (Endian.unpack_array_be bytewidth v) = bytewidth ∧
  forall i, (i < bytewidth)%nat ->
    Endian.at_index (Endian.unpack_array_be bytewidth v) i
    = Endian.Byte
        (Z.shiftr v (Z.of_nat ((bytewidth - i - 1) * Endian.CHAR_BIT))).
Proof.
  unfold Endian.unpack_array_be. rewrite length_replicate.
  pose (P := fun (k : nat) (a : list Z) =>
    length a = bytewidth ∧
    forall i, (i < k)%nat ->
      Endian.at_index a i
      = Endian.Byte
          (Z.shiftr v (Z.of_nat ((bytewidth - i - 1) * Endian.CHAR_BIT)))).
  assert (H : P (0 + bytewidth)%nat
                (for_upto bytewidth 0
                   (fun i array =>
                      <[i := Endian.Byte
                               (Z.shiftr v
                                  (Z.of_nat ((length array - i - 1)
                                             * Endian.CHAR_BIT)))]>
                        array)
                   (replicate bytewidth 0))).
  { apply for_upto_invariant.
    - split; [apply length_replicate | intros; lia].
    - intros j a Hj [Hlen Ha]. split; [by rewrite length_insert|].
      intros i Hi. unfold Endian.at_index. rewrite Hlen.
      destruct (decide (i = j)) as [->|Hne].
      + apply nth_lookup_Some. apply list_lookup_insert_eq. lia.
      + rewrite nth_lookup, list_lookup_insert_ne, <- nth_lookup by done.
        apply Ha. lia. }
  exact H.
Qed.

Lemma pack_unpack_le (v : Z) :
  0 <= v < 2 ^ bits ->
  Endian.pack_array_le bytewidth (Endian.unpack_array_le bytewidth v) = v.
Proof.
  intros Hv. destruct (unpack_array_le_spec v) as [Hlen Hnth].
  unfold Endian.pack_array_le. rewrite Hlen.
  pose (P := fun (k : nat) (value : Z) =>
    forall j, 0 <= j ->
      Z.testbit value j = (j <? Z.of_nat (k * 8)) && Z.testbit v j).
  match goal with |- ?lhs = _ => assert (H : P (0 + bytewidth)%nat lhs) end.
  { apply for_upto_invariant.
    - intros j Hj. rewrite Z.testbit_0_l. bit_cases.
    - intros k value Hk IH j Hj. unfold Endian.to_T at 1.
      rewrite Z.testbit_mod_pow2 by apply bits_nonneg.
      rewrite Z.lor_spec, IH by done. rewrite Hnth by lia.
      rewrite byte_bit by (unfold Endian.CHAR_BIT; lia).
      unfold Endian.bitwidth, Endian.CHAR_BIT.
      destruct (Z.testbit v j); bit_cases. }
  apply Z.bits_inj'. intros j Hj. rewrite H by done.
  rewrite (testbit_in_range v j) by done.
  unfold Endian.bitwidth, Endian.CHAR_BIT. simpl. bit_cases.
Qed.

Lemma pack_unpack_be (v : Z) :
  0 <= v < 2 ^ bits ->
  Endian.pack_array_be bytewidth (Endian.unpack_array_be bytewidth v) = v.
Proof.
  intros Hv. destruct (unpack_array_be_spec v) as [Hlen Hnth].
  unfold Endian.pack_array_be. rewrite Hlen.
  pose (P := fun (k : nat) (value : Z) =>
    forall j, 0 <= j ->
      Z.testbit value j
      = (Z.of_nat ((bytewidth - k) * 8) <=? j) && (j <? bits) && Z.testbit v j).
  match goal with |- ?lhs = _ => assert (H : P (0 + bytewidth)%nat lhs) end.
  { apply for_upto_invariant.
    - intros j Hj. rewrite Z.testbit_0_l.
      unfold Endian.bitwidth, Endian.CHAR_BIT. bit_cases.
    - intros k value Hk IH j Hj. unfold Endian.to_T at 1.
      rewrite Z.testbit_mod_pow2 by apply bits_nonneg.
      rewrite Z.lor_spec, IH by done. rewrite Hnth by lia.
      rewrite byte_bit by (unfold Endian.CHAR_BIT; lia).
      unfold Endian.bitwidth, Endian.CHAR_BIT.
      destruct (Z.testbit v j); bit_cases. }
  apply Z.bits_inj'. intros j Hj. rewrite H by done.
  rewrite (testbit_in_range v j) at 2 by done.
  replace (bytewidth - (0 + bytewidth))%nat with 0%nat by lia.
  bit_cases.
Qed.

Lemma pack_unpack_array (e : Endian.Endian) (v : Z) :
  0 <= v < 2 ^ bits ->
  Endian.pack_array bytewidth e (Endian.unpack_array bytewidth e v) = v.
Proof.
  intros Hv. destruct e; [by apply pack_unpack_le | by apply pack_unpack_be].
Qed.

End Round_trip.

(** ** Exact LRU: the invariant of the list and the map *)

Section Exact_LRU.

Import LRUCacheInfo.

Implicit Types (s : t) (l : list (iterator * N)).

Lemma filter_way_absent l way :
  way ∉ l.*2 -> filter (fun c => c.2 = way) l = [].
Proof.
  induction l as [|c l IH]; intros Hnotin; [done|].
  rewrite fmap_cons in Hnotin. apply not_elem_of_cons in Hnotin as [Hne Hnotin].
  rewrite filter_cons, decide_False by done. by apply IH.
Qed.

Lemma filter_way_once l way it :
  NoDup l.*2 -> (it, way) ∈ l ->
  length (filter (fun c => c.2 = way) l) = 1%nat.
Proof.
  induction l as [|c l IH]; intros Hnd Hin.
  - by apply elem_of_nil in Hin.
  - rewrite fmap_cons in Hnd. apply NoDup_cons in Hnd as [Hnotin Hnd].
    rewrite filter_cons. apply elem_of_cons in Hin as [<-|Hin].
    + rewrite decide_True by done. simpl in *.
      by rewrite filter_way_absent.
    + rewrite decide_False; [by apply IH|].
      intros Heq. apply Hnotin. rewrite Heq.
      by apply (list_elem_of_fmap_2 snd) in Hin.
Qed.

Lemma unlink_absent l it : it ∉ l.*1 -> unlink it l = l.
Proof.
  unfold unlink. induction l as [|c l IH]; intros Hnotin; [done|].
  rewrite fmap_cons in Hnotin. apply not_elem_of_cons in Hnotin as [Hne Hnotin].
  rewrite filter_cons, decide_True by done. f_equal. by apply IH.
Qed.

Lemma splice_Permutation l it c :
  NoDup l.*1 -> cell_of it l = Some c -> c :: unlink it l ≡ₚ l.
Proof.
  unfold cell_of, unlink.
  induction l as [|x l IH]; intros Hnd Hc; [done|].
  rewrite fmap_cons in Hnd. apply NoDup_cons in Hnd as [Hnotin Hnd].
  rewrite filter_cons in Hc. rewrite filter_cons.
  destruct (decide (x.1 = it)) as [Heq|Hne].
  - simpl in Hc. inversion Hc; subst c. rewrite decide_False by auto.
    fold (unlink it l). rewrite unlink_absent; [done|by rewrite <- Heq].
  - rewrite decide_True by done. rewrite Permutation_swap.
    by rewrite IH.
Qed.

Lemma cell_of_elem l it way :
  (it, way) ∈ l -> is_Some (cell_of it l).
Proof.
  unfold cell_of. induction l as [|x l IH]; intros Hin.
  - by apply elem_of_nil in Hin.
  - rewrite filter_cons. destruct (decide (x.1 = it)); [by eexists|].
    apply IH. apply elem_of_cons in Hin as [<-|Hin]; [|done].
    by simpl in *.
Qed.

Lemma well_formed_Permutation s l' :
  well_formed s -> l' ≡ₚ lru_list s ->
  well_formed {| lru_list := l'; lru_hash := lru_hash s;
                 ways := ways s; next_cell := next_cell s |}.
Proof.
  intros [Hc Hw Hh Hn Hs] Hperm. split; unfold order in *; simpl.
  - by rewrite Hperm.
  - by rewrite Hperm.
  - intros way it. rewrite Hperm. apply Hh.
  - intros c. rewrite Hperm. apply Hn.
  - by rewrite Hperm.
Qed.

Lemma touch_well_formed way s s' :
  well_formed s -> touch way s = Ok s' ->
  well_formed s' ∧ length (lru_list s') = length (lru_list s)
  ∧ ways s' = ways s.
Proof.
  intros Hwf. unfold touch, splice_begin.
  destruct (lru_hash s !! way) as [it|] eqn:Hit; [|done].
  destruct (cell_of it (lru_list s)) as [c|] eqn:Hc; [|done].
  simpl. intros [= <-].
  pose proof (splice_Permutation _ _ _ (wf_cells _ Hwf) Hc) as Hperm.
  split; [by apply well_formed_Permutation|].
  split; [exact (Permutation_length Hperm) | done].
Qed.

Lemma set_to_erase_well_formed way s s' :
  well_formed s -> set_to_erase way s = Ok s' ->
  well_formed s' ∧ length (lru_list s') = length (lru_list s)
  ∧ ways s' = ways s.
Proof.
  intros Hwf. unfold set_to_erase, splice_end.
  destruct (lru_hash s !! way) as [it|] eqn:Hit; [|done].
  destruct (cell_of it (lru_list s)) as [c|] eqn:Hc; [|done].
  simpl. intros [= <-].
  pose proof (splice_Permutation _ _ _ (wf_cells _ Hwf) Hc) as Hperm.
  assert (unlink it (lru_list s) ++ [c] ≡ₚ lru_list s) as Hperm'.
  { etrans; [apply Permutation_app_comm | exact Hperm]. }
  split; [by apply well_formed_Permutation|].
  split; [exact (Permutation_length Hperm') | done].
Qed.

(** The list of a well formed state that ends in the cell [(it, way)]. *)
Lemma well_formed_snoc s l it way :
  well_formed s -> lru_list s = l ++ [(it, way)] ->
  NoDup l.*1 ∧ NoDup l.*2 ∧ (way ∉ l.*2) ∧ (it ∉ l.*1)
  ∧ lru_hash s !! way = Some it.
Proof.
  intros [Hc Hw Hh Hn Hs] Hl. unfold order in *. rewrite Hl in *.
  rewrite fmap_app in Hc. rewrite fmap_app in Hw. simpl in *.
  apply NoDup_app in Hc as (Hc1 & Hc2 & _).
  apply NoDup_app in Hw as (Hw1 & Hw2 & _).
  repeat split; try done.
  - intros Hin. apply (Hw2 _ Hin). apply list_elem_of_singleton. done.
  - intros Hin. apply (Hc2 _ Hin). apply list_elem_of_singleton. done.
  - apply Hh. apply elem_of_app. right. by apply list_elem_of_singleton.
Qed.

Lemma update_well_formed s s' way :
  well_formed s -> update s = Ok (s', way) ->
  well_formed s' ∧ length (lru_list s') = length (lru_list s)
  ∧ ways s' = ways s.
Proof.
  intros Hwf. unfold update.
  destruct (last (lru_list s)) as [[it w]|] eqn:Hlast; [|done].
  apply last_Some in Hlast as [l Hl]. rewrite Hl, removelast_last.
  intros [= <- <-].
  destruct (well_formed_snoc _ _ _ _ Hwf Hl) as (Hc & Hw & Hwn & Hcn & Hit).
  destruct Hwf as [_ _ Hh Hn Hs]. rewrite Hl in *.
  split; [split; unfold order; simpl|].
  - apply NoDup_cons. split; [|done].
    intros Hin. apply list_elem_of_fmap in Hin as (c & Hc1 & Hc2).
    assert (c.1 < next_cell s)%nat; [|lia].
    apply Hn. apply elem_of_app. by left.
  - apply NoDup_cons. done.
  - intros way' it'. rewrite elem_of_cons.
    destruct (decide (way' = w)) as [->|Hne].
    + rewrite lookup_insert_eq. split.
      * intros [= <-]. by left.
      * intros [[= -> ]|Hin]; [done|].
        apply (list_elem_of_fmap_2 snd) in Hin. done.
    + rewrite lookup_insert_ne by done. rewrite Hh, elem_of_app.
      rewrite list_elem_of_singleton. split.
      * intros [Hin|[= -> ->]]; [by right | done].
      * intros [[= -> ->]|Hin]; [done | by left].
  - intros c [->|Hin]%elem_of_cons; simpl; [lia|].
    assert (c.1 < next_cell s)%nat; [|lia].
    apply Hn. apply elem_of_app. by left.
  - rewrite map_size_insert_Some by eauto. rewrite Hs.
    rewrite length_app. simpl. lia.
  - simpl. rewrite length_app. simpl. split; [lia | done].
Qed.

Lemma push_front_emplace_well_formed way s :
  well_formed s -> lru_hash s !! way = None ->
  well_formed (push_front_emplace way s).
Proof.
  intros [Hc Hw Hh Hn Hs] Hnone. unfold push_front_emplace, emplace.
  rewrite Hnone. split; unfold order in *; simpl.
  - apply NoDup_cons. split; [|done].
    intros Hin. apply list_elem_of_fmap in Hin as (c & Hc1 & Hc2).
    specialize (Hn c Hc2). lia.
  - apply NoDup_cons. split; [|done].
    intros Hin. apply list_elem_of_fmap in Hin as ([it w] & Hc1 & Hc2).
    simpl in Hc1. subst w. apply Hh in Hc2. congruence.
  - intros way' it'. rewrite elem_of_cons.
    destruct (decide (way' = way)) as [->|Hne].
    + rewrite lookup_insert_eq. split.
      * intros [= <-]. by left.
      * intros [[= -> ]|Hin]; [done|]. apply Hh in Hin. congruence.
    + rewrite lookup_insert_ne by done. rewrite Hh. split.
      * by right.
      * intros [[= -> ->]|Hin]; done.
  - intros c [->|Hin]%elem_of_cons; simpl; [lia|].
    specialize (Hn c Hin). lia.
  - by rewrite map_size_insert_None, Hs.
Qed.

Lemma erase_lru_element_well_formed s s' :
  well_formed s -> erase_lru_element s = Ok s' ->
  well_formed s'
  ∧ Datatypes.S (length (lru_list s')) = length (lru_list s)
  ∧ ways s' = ways s
  ∧ exists way, tail_way s = Some way ∧ lru_hash s' = delete way (lru_hash s).
Proof.
  intros Hwf. unfold erase_lru_element, tail_way.
  destruct (last (lru_list s)) as [[it w]|] eqn:Hlast; [|done].
  apply last_Some in Hlast as [l Hl]. rewrite Hl, removelast_last.
  intros [= <-].
  destruct (well_formed_snoc _ _ _ _ Hwf Hl) as (Hc & Hw & Hwn & Hcn & Hit).
  destruct Hwf as [_ _ Hh Hn Hs]. rewrite Hl in *.
  split; [split; unfold order; simpl; try done|].
  - intros way' it'. destruct (decide (way' = w)) as [->|Hne].
    + rewrite lookup_delete_eq. split; [done|].
      intros Hin. apply (list_elem_of_fmap_2 snd) in Hin. done.
    + rewrite lookup_delete_ne by done. rewrite Hh, elem_of_app.
      rewrite list_elem_of_singleton. split.
      * intros [Hin|[= -> ->]]; done.
      * intros Hin. by left.
  - intros c Hin. apply Hn. apply elem_of_app. by left.
  - rewrite map_size_delete_Some by eauto. rewrite Hs.
    rewrite length_app. simpl. lia.
  - simpl. rewrite length_app. simpl. split; [lia|]. split; [done|].
    by exists w.
Qed.


Lemma allocate_well_formed way s s' :
  well_formed s -> full s -> permitted_fresh (Allocate way) s ->
  allocate way s = Ok s' -> well_formed s' ∧ full s' ∧ ways s' = ways s.
Proof.
  intros Hwf Hfull Hpre. unfold allocate, full in *.
  replace (ways s <=? N.of_nat (size (lru_hash s)))%N with true.
  2:{ symmetry. apply N.leb_le. rewrite (wf_size _ Hwf). lia. }
  destruct (erase_lru_element s) as [s1| | | |] eqn:Herase; try done.
  simpl. intros [= <-].
  destruct (erase_lru_element_well_formed _ _ Hwf Herase)
    as (Hwf1 & Hlen & Hways & e & Htail & Hhash).
  assert (lru_hash s1 !! way = None) as Hnone.
  { rewrite Hhash. destruct Hpre as [Hnot|[_ Hway]].
    - apply lookup_delete_None. right.
      by apply eq_None_not_Some.
    - rewrite Htail in Hway. injection Hway as ->.
      apply lookup_delete_eq. }
  split; [by apply push_front_emplace_well_formed|].
  simpl. split; [lia | done].
Qed.

Lemma LRUCacheInfo_new (n : N) :
  n ≠ 0%N ->
  exists s, LRUCacheInfo n = Ok s ∧ well_formed s ∧ full s ∧ ways s = n
            ∧ order s = rev (N.of_nat <$> seq 0 (N.to_nat n)).
Proof.
  intros Hn. unfold LRUCacheInfo.
  rewrite (proj2 (N.eqb_neq n 0)) by done. eexists. split; [done|].
  pose (P := fun (k : nat) s =>
    well_formed s ∧ length (lru_list s) = k ∧ ways s = n
    ∧ order s = rev (N.of_nat <$> seq 0 k)).
  match goal with |- context [ order ?s ] =>
    assert (H : P (0 + N.to_nat n)%nat s) end.
  { apply for_upto_invariant.
    - split; [|done]. split; simpl.
      + apply NoDup_nil_2.
      + apply NoDup_nil_2.
      + intros way it. rewrite lookup_empty, elem_of_nil. by split.
      + intros c Hc. by apply elem_of_nil in Hc.
      + apply map_size_empty.
    - intros j s' Hj (Hwf & Hlen & Hways & Horder).
      assert (lru_hash s' !! N.of_nat j = None) as Hnone.
      { apply eq_None_not_Some. intros [it Hit].
        apply (wf_hash _ Hwf) in Hit.
        apply (list_elem_of_fmap_2 snd) in Hit. fold (order s') in Hit.
        rewrite Horder, <- Permutation_rev in Hit.
        apply list_elem_of_fmap in Hit as (i & Hi & Hin).
        apply elem_of_seq in Hin. simpl in Hi. lia. }
      split; [by apply push_front_emplace_well_formed|].
      split; [simpl; by rewrite Hlen|]. split; [done|].
      change (order (push_front_emplace (N.of_nat j) s'))
        with (N.of_nat j :: order s').
      by rewrite Horder, seq_S, fmap_app, rev_app_distr. }
  destruct H as (Hwf & Hlen & Hways & Horder).
  split; [done|]. split; [|by split].
  unfold full. rewrite Hlen, Hways. lia.
Qed.

Lemma reachable_well_formed (n : N) s :
  reachable permitted_fresh n s ->
  well_formed s ∧ full s ∧ ways s = n ∧ n ≠ 0%N.
Proof.
  induction 1 as [s Hnew | s c s' Hreach (Hwf & Hfull & Hn & Hpos) Hpre Hrun].
  - destruct (decide (n = 0%N)) as [->|Hn]; [done|].
    destruct (LRUCacheInfo_new n Hn) as (s0 & Hs0 & Hwf & Hfull & Hways & _).
    rewrite Hs0 in Hnew. by injection Hnew as <-.
  - unfold full in *. destruct c as [way|way|way|]; simpl in Hrun.
    + destruct (touch_well_formed _ _ _ Hwf Hrun) as (? & Hlen & Hways).
      split; [done|]. by rewrite Hlen, Hways.
    + destruct (set_to_erase_well_formed _ _ _ Hwf Hrun) as (? & Hlen & Hways).
      split; [done|]. by rewrite Hlen, Hways.
    + destruct (allocate_well_formed way s s' Hwf Hfull Hpre Hrun)
        as (? & ? & Hways).
      split; [done|]. split; [done|]. split; [congruence | done].
    + destruct (update s) as [[s1 w]| | | |] eqn:Hupd; try done.
      simpl in Hrun. injection Hrun as <-.
      destruct (update_well_formed _ _ _ Hwf Hupd) as (? & Hlen & Hways).
      split; [done|]. by rewrite Hlen, Hways.
Qed.

(** A permitted call on a reachable state returns: no assertion fails and
    no iterator dangles. *)
Lemma reachable_call_returns (n : N) s (c : call) :
  reachable permitted_fresh n s -> permitted_fresh c s ->
  exists s', run c s = Ok s'.
Proof.
  intros (Hwf & Hfull & Hways & Hpos)%reachable_well_formed Hpre.
  unfold full in Hfull.
  assert (exists l it w, lru_list s = l ++ [(it, w)]) as (l & it & w & Hl).
  { destruct (lru_list s) as [|c0 l0] using rev_ind; [simpl in Hfull; lia|].
    destruct c0 as [it w]. by exists l0, it, w. }
  destruct c as [way|way|way|]; simpl in *.
  - destruct Hpre as [it' Hit]. unfold touch, splice_begin. rewrite Hit.
    apply (wf_hash _ Hwf) in Hit.
    destruct (cell_of_elem _ _ _ Hit) as [c ->]. by eexists.
  - destruct Hpre as [it' Hit]. unfold set_to_erase, splice_end. rewrite Hit.
    apply (wf_hash _ Hwf) in Hit.
    destruct (cell_of_elem _ _ _ Hit) as [c ->]. by eexists.
  - unfold allocate, erase_lru_element. rewrite Hl, last_snoc.
    destruct (ways s <=? N.of_nat (size (lru_hash s)))%N; by eexists.
  - unfold update. rewrite Hl, last_snoc. by eexists.
Qed.

Lemma well_formed_consistent s : well_formed s -> full s -> consistent s.
Proof.
  intros Hwf Hfull. split.
  - intros way it Hit. apply (wf_hash _ Hwf) in Hit. split; [done|].
    apply (filter_way_once _ _ it); [apply (wf_ways _ Hwf) | done].
  - intros it way. apply (wf_hash _ Hwf).
  - apply (wf_ways _ Hwf).
  - unfold full in Hfull. lia.
Qed.

(** *** The order in which [update] hands out the ways *)

Lemma update_order s (l : list N) (x : N) :
  order s = l ++ [x] ->
  exists s', update s = Ok (s', x) ∧ order s' = x :: l.
Proof.
  unfold order, update. intros Horder.
  apply fmap_app_inv in Horder as (cells & tl & Hcells & Htl & Hl).
  destruct tl as [|[it w] [|? ?]]; try done. simpl in Htl.
  injection Htl as ->. rewrite Hl, last_snoc, removelast_last.
  eexists. split; [done|]. simpl. by rewrite Hcells.
Qed.

Lemma updates_rotate (b : list N) :
  forall (a : list N) s,
    order s = a ++ b ->
    exists s', updates (length b) s = Ok (s', rev b) ∧ order s' = b ++ a.
Proof.
  induction b as [|x b IH] using rev_ind; intros a s Horder.
  - exists s. rewrite app_nil_r in Horder. done.
  - rewrite app_assoc in Horder.
    destruct (update_order _ _ _ Horder) as (s1 & Hupd & Horder1).
    destruct (IH (x :: a) s1) as (s' & Hupds & Horder').
    { rewrite Horder1. by rewrite app_comm_cons. }
    exists s'. rewrite length_app, Nat.add_comm. simpl.
    rewrite Hupd. simpl. rewrite Hupds. simpl.
    rewrite rev_unit. split; [done|].
    by rewrite Horder', <- app_assoc.
Qed.

Lemma updates_app (j k : nat) :
  forall s,
    updates (j + k) s
    = (let* (s1, r1) := updates j s in
       let* (s2, r2) := updates k s1 in
       Ok (s2, r1 ++ r2)).
Proof.
  induction j as [|j IH]; intros s; simpl.
  - destruct (updates k s) as [[s2 r2]| | | |]; done.
  - destruct (update s) as [[s1 w]| | | |]; try done. simpl.
    rewrite IH. destruct (updates j s1) as [[s2 r2]| | | |]; try done. simpl.
    destruct (updates k s2) as [[s3 r3]| | | |]; done.
Qed.

Lemma updates_cycle s (blocks : nat) :
  exists s',
    updates (blocks * length (order s)) s
    = Ok (s', mjoin (replicate blocks (rev (order s))))
    ∧ order s' = order s.
Proof.
  induction blocks as [|blocks (s1 & Hs1 & Horder1)].
  - by exists s.
  - destruct (updates_rotate (order s1) [] s1) as (s2 & Hs2 & Horder2); [done|].
    exists s2. replace (Datatypes.S blocks * length (order s))%nat
      with (blocks * length (order s) + length (order s1))%nat
      by (rewrite Horder1; lia).
    rewrite updates_app, Hs1. simpl. rewrite Hs2. simpl.
    rewrite app_nil_r in Horder2. rewrite Horder1 in *.
    split; [|done]. do 2 f_equal.
    clear. induction blocks as [|blocks IH]; simpl.
    + by rewrite app_nil_r.
    + by rewrite <- app_assoc, IH.
Qed.

End Exact_LRU.

(** C1. For every [n >= 1], the freshly constructed exact LRU policy with
    [n] ways holds the ways, read from the least to the most recently used,
    as [0, 1, ..., n-1]; the first [n] calls of [update] return exactly
    that sequence (each way once, oldest first), and so does every later
    block of [n] calls: any number of blocks returns the sequence repeated
    that many times. *)
Theorem exact_lru_update_cycles (n : N) (blocks : nat) :
  (1 <= n)%N ->
  exists s s',
    LRUCacheInfo.LRUCacheInfo n = Ok s
    ∧ rev (LRUCacheInfo.order s) = N.of_nat <$> seq 0 (N.to_nat n)
    ∧ LRUCacheInfo.updates (blocks * N.to_nat n) s
      = Ok (s', mjoin (replicate blocks (N.of_nat <$> seq 0 (N.to_nat n)))).
Proof.
  intros Hn.
  destruct (LRUCacheInfo_new n) as (s & Hs & _ & _ & _ & Horder); [lia|].
  destruct (updates_cycle s blocks) as (s' & Hupd & _).
  exists s, s'. split; [done|].
  assert (rev (LRUCacheInfo.order s) = N.of_nat <$> seq 0 (N.to_nat n)) as Hrev.
  { by rewrite Horder, rev_involutive. }
  split; [done|].
  rewrite <- Hrev, <- Hupd. f_equal.
  by rewrite Horder, length_rev, length_fmap, length_seq.
Qed.

Lemma exact_lru_update_cycles_witness :
  (1 <= 3)%N ∧
  exists s s',
    LRUCacheInfo.LRUCacheInfo 3 = Ok s
    ∧ rev (LRUCacheInfo.order s) = N.of_nat <$> seq 0 (N.to_nat 3)
    ∧ LRUCacheInfo.updates (2 * N.to_nat 3) s
      = Ok (s', mjoin (replicate 2 (N.of_nat <$> seq 0 (N.to_nat 3)))).
Proof. split; [lia | apply (exact_lru_update_cycles 3 2); lia]. Defined.

(** C2, as stated, fails: with three ways the first three calls of
    [update] on the constructed policy do not return 2, 1, 0. *)
Lemma exact_lru_three_ways_not_2_1_0 :
  ¬ exists s s',
      LRUCacheInfo.LRUCacheInfo 3 = Ok s
      ∧ LRUCacheInfo.updates 3 s = Ok (s', [2; 1; 0]%N).
Proof.
  intros (s & s' & Hs & Hupd).
  vm_compute in Hs. injection Hs as <-.
  vm_compute in Hupd. discriminate.
Qed.

(** C2, amended. With three ways the recency order after construction is
    [2, 1, 0] (way 2 at the head, way 0 at the tail), and the first three
    calls of [update] return 0, then 1, then 2. *)
Theorem exact_lru_three_ways :
  exists s s',
    LRUCacheInfo.LRUCacheInfo 3 = Ok s
    ∧ LRUCacheInfo.order s = [2; 1; 0]%N
    ∧ LRUCacheInfo.updates 3 s = Ok (s', [0; 1; 2]%N).
Proof.
  eexists _, _.
  split; [vm_compute; reflexivity|].
  split; [reflexivity|].
  vm_compute. reflexivity.
Qed.

(** C3, as stated, fails: on the policy constructed with two ways,
    [allocate( 5)] does not evict way 1, and the [update] that follows does
    not return 0. *)
Lemma exact_lru_allocate_does_not_evict_way_1 :
  (¬ exists s s1,
       LRUCacheInfo.LRUCacheInfo 2 = Ok s
       ∧ LRUCacheInfo.allocate 5 s = Ok s1
       ∧ LRUCacheInfo.lru_hash s1 !! 1%N = None)
  ∧ (¬ exists s s1,
         LRUCacheInfo.LRUCacheInfo 2 = Ok s
         ∧ LRUCacheInfo.allocate 5 s = Ok s1
         ∧ 1%N ∉ LRUCacheInfo.order s1)
  ∧ (¬ exists s s1 s2,
         LRUCacheInfo.LRUCacheInfo 2 = Ok s
         ∧ LRUCacheInfo.allocate 5 s = Ok s1
         ∧ LRUCacheInfo.update s1 = Ok (s2, 0%N)).
Proof.
  split; [|split].
  - intros (s & s1 & Hs & Hs1 & Hgone).
    vm_compute in Hs. injection Hs as <-.
    vm_compute in Hs1. injection Hs1 as <-.
    vm_compute in Hgone. discriminate.
  - intros (s & s1 & Hs & Hs1 & Hgone).
    vm_compute in Hs. injection Hs as <-.
    vm_compute in Hs1. injection Hs1 as <-.
    apply Hgone. unfold LRUCacheInfo.order. simpl.
    apply elem_of_cons. right. by left.
  - intros (s & s1 & s2 & Hs & Hs1 & Hupd).
    vm_compute in Hs. injection Hs as <-.
    vm_compute in Hs1. injection Hs1 as <-.
    vm_compute in Hupd. discriminate.
Qed.

(** C3, amended. The policy constructed with two ways holds the ways in
    the order [1, 0], way 0 being the least recently used; [allocate( 5)]
    evicts exactly way 0, from the list and from the map, leaves the ways
    1 and 5 tracked with way 5 at the head, and the next [update] returns
    1. *)
Theorem exact_lru_allocate_evicts_tail :
  exists s s1 s2,
    LRUCacheInfo.LRUCacheInfo 2 = Ok s
    ∧ LRUCacheInfo.order s = [1; 0]%N
    ∧ LRUCacheInfo.tail_way s = Some 0%N
    ∧ LRUCacheInfo.allocate 5 s = Ok s1
    ∧ LRUCacheInfo.order s1 = [5; 1]%N
    ∧ dom (LRUCacheInfo.lru_hash s1) = ({[1; 5]} : gset N)%N
    ∧ LRUCacheInfo.lru_hash s1 !! 0%N = None
    ∧ LRUCacheInfo.update s1 = Ok (s2, 1%N).
Proof.
  eexists _, _, _.
  split; [vm_compute; reflexivity|].
  split; [reflexivity|]. split; [reflexivity|].
  split; [vm_compute; reflexivity|].
  split; [reflexivity|].
  split; [by vm_compute|].
  split; [reflexivity|].
  vm_compute. reflexivity.
Qed.

(** C4, as stated, fails: [allocate] with a way that is tracked and is not
    the one about to be evicted leaves that way twice in the list. *)
Lemma exact_lru_allocate_tracked_way_duplicates :
  exists s,
    LRUCacheInfo.reachable LRUCacheInfo.permitted 2 s
    ∧ ¬ LRUCacheInfo.consistent s.
Proof.
  destruct (LRUCacheInfo.LRUCacheInfo 2) as [s0| | | |] eqn:Hs0;
    try (vm_compute in Hs0; discriminate).
  destruct (LRUCacheInfo.allocate 1 s0) as [s| | | |] eqn:Hs;
    vm_compute in Hs0; injection Hs0 as <-;
    try (vm_compute in Hs; discriminate).
  exists s. split.
  - eapply LRUCacheInfo.reachable_call with (c := LRUCacheInfo.Allocate 1%N).
    + apply LRUCacheInfo.reachable_new. vm_compute. reflexivity.
    + exact I.
    + exact Hs.
  - intros [_ _ Hnd _]. vm_compute in Hs. injection Hs as <-.
    unfold LRUCacheInfo.order in Hnd. simpl in Hnd.
    apply NoDup_cons in Hnd as [Hnotin _]. apply Hnotin. by left.
Qed.

(** C4, amended. Every state of an exact LRU policy that is reached from
    the constructed one by [update], by [touch] and [set_to_erase] on
    tracked ways, and by [allocate] with a way that is not tracked or is the
    least recently used way, is consistent: each way of the map is in the
    list exactly once, in the cell the map records; each cell of the list is
    in the map; the list has no way twice; and it is not longer than
    [ways]. *)
Theorem exact_lru_consistent (n : N) (s : LRUCacheInfo.t) :
  LRUCacheInfo.reachable LRUCacheInfo.permitted_fresh n s ->
  LRUCacheInfo.consistent s.
Proof.
  intros Hreach. apply reachable_well_formed in Hreach as (Hwf & Hfull & _).
  by apply well_formed_consistent.
Qed.

Lemma exact_lru_consistent_witness :
  LRUCacheInfo.reachable LRUCacheInfo.permitted_fresh 2
    LRUCacheInfo.two_ways_then_allocate_5
  ∧ LRUCacheInfo.consistent LRUCacheInfo.two_ways_then_allocate_5.
Proof.
  assert (LRUCacheInfo.reachable LRUCacheInfo.permitted_fresh 2
            LRUCacheInfo.two_ways_then_allocate_5) as Hreach.
  { eapply LRUCacheInfo.reachable_call with (c := LRUCacheInfo.Allocate 5%N).
    - apply LRUCacheInfo.reachable_new. vm_compute. reflexivity.
    - left. intros [it Hit]. vm_compute in Hit. discriminate.
    - vm_compute. reflexivity. }
  split; [exact Hreach | exact (exact_lru_consistent 2 _ Hreach)].
Defined.

(** ** Pseudo LRU *)

Section Pseudo_LRU.

Import Pseudo_LRUCacheInfo.

(** *** The loop of [calculate_depth] *)

Lemma calculate_depth_loop_zero (fuel : nat) :
  forall i, calculate_depth_loop fuel i 0 = OutOfFuel.
Proof.
  induction fuel as [|fuel IH]; intros i; [done|].
  simpl. apply IH.
Qed.

(** More fuel does not change a result that was reached. *)
Lemma calculate_depth_loop_more_fuel (fuel : nat) :
  forall fuel' i numerator,
    (fuel <= fuel')%nat ->
    calculate_depth_loop fuel i numerator ≠ OutOfFuel ->
    calculate_depth_loop fuel' i numerator
    = calculate_depth_loop fuel i numerator.
Proof.
  induction fuel as [|fuel IH]; intros fuel' i numerator Hle Hres.
  - simpl in *. destruct (numerator =? 1)%N eqn:Hone; [|done].
    destruct fuel'; simpl; by rewrite Hone.
  - destruct fuel' as [|fuel']; [lia|]. simpl in *.
    destruct (numerator =? 1)%N; [done|].
    destruct (negb (numerator mod 2 =? 0)%N); [done|].
    apply IH; [lia | done].
Qed.

Lemma power_of_two_half (n : N) :
  (2 <= n)%N -> (n mod 2 = 0)%N ->
  is_power_of_two (n / 2) <-> is_power_of_two n.
Proof.
  intros Hn Heven.
  assert (n = 2 * (n / 2))%N as Hdiv.
  { rewrite (N.div_mod n 2) at 1 by done. lia. }
  split; intros [k Hk].
  - exists (N.succ k). rewrite N.pow_succ_r', <- Hk. done.
  - destruct (N.eq_dec k 0%N) as [->|Hk0]; [simpl in Hk; lia|].
    exists (N.pred k). apply (N.mul_cancel_l _ _ 2); [done|].
    rewrite <- Hdiv, <- N.pow_succ_r', N.succ_pred; done.
Qed.

Lemma odd_not_power_of_two (n : N) :
  (2 <= n)%N -> (n mod 2 ≠ 0)%N -> ¬ is_power_of_two n.
Proof.
  intros Hn Hodd [k Hk]. apply Hodd. rewrite Hk.
  destruct (N.eq_dec k 0%N) as [->|Hk0]; [simpl in Hk; lia|].
  rewrite <- (N.succ_pred k), N.pow_succ_r' by done.
  rewrite N.mul_comm. apply N.Div0.mod_mul.
Qed.

(** From a numerator that is at least one the loop ends: it returns when
    the numerator is a power of two and throws when it is not. *)
Lemma calculate_depth_loop_ends (numerator : N) :
  (1 <= numerator)%N ->
  forall i, exists fuel,
    (is_power_of_two numerator
     ∧ exists depth, calculate_depth_loop fuel i numerator = Ok depth)
    ∨ (¬ is_power_of_two numerator
       ∧ calculate_depth_loop fuel i numerator
         = Throw "Number of ways must be the power of 2!").
Proof.
  induction numerator as [numerator IH]
    using (well_founded_induction N.lt_wf_0).
  intros Hpos i. destruct (N.eqb_spec numerator 1%N) as [->|Hone].
  - exists 0%nat. left. split; [by exists 0%N | by exists i].
  - destruct (N.eqb_spec (numerator mod 2)%N 0%N) as [Heven|Hodd].
    + destruct (IH (numerator / 2)%N) with (i := ((i + 1) mod 2 ^ 64)%N)
        as [fuel Hfuel].
      * apply N.div_lt; lia.
      * assert (numerator = 2 * (numerator / 2))%N as Hdiv.
        { rewrite (N.div_mod numerator 2) at 1 by done. lia. }
        lia.
      * exists (Datatypes.S fuel). simpl.
        rewrite (proj2 (N.eqb_neq _ _) Hone).
        rewrite (proj2 (N.eqb_eq _ _) Heven). simpl.
        rewrite <- (power_of_two_half numerator) by (done || lia).
        exact Hfuel.
    + exists 1%nat. right. split.
      * apply odd_not_power_of_two; [lia | done].
      * simpl. rewrite (proj2 (N.eqb_neq _ _) Hone).
        by rewrite (proj2 (N.eqb_neq _ _) Hodd).
Qed.

Lemma Pseudo_LRUCacheInfo_Ok (fuel : nat) (n : N) s :
  Pseudo_LRUCacheInfo fuel n = Ok s ->
  exists depth, calculate_depth fuel n = Ok depth.
Proof.
  unfold Pseudo_LRUCacheInfo.
  destruct (calculate_depth fuel n) as [depth| | | |]; try done. by exists depth.
Qed.

Lemma Pseudo_LRUCacheInfo_of_depth (fuel : nat) (n depth : N) :
  calculate_depth fuel n = Ok depth ->
  exists s, Pseudo_LRUCacheInfo fuel n = Ok s.
Proof.
  unfold Pseudo_LRUCacheInfo. intros ->. simpl.
  destruct (construct_tree _ _ _) as [tr [leaf_it node_it]]. by eexists.
Qed.

Lemma Pseudo_LRUCacheInfo_Throw (fuel : nat) (n : N) (what : string) :
  Pseudo_LRUCacheInfo fuel n = Throw what <->
  calculate_depth fuel n = Throw what.
Proof.
  unfold Pseudo_LRUCacheInfo.
  destruct (calculate_depth fuel n) as [depth| | | |]; simpl;
    try (split; intros H; try discriminate; by injection H as ->).
  destruct (construct_tree _ _ _) as [tr [leaf_it node_it]].
  split; intros; discriminate.
Qed.


Lemma calculate_depth_loop_deterministic (fuel1 fuel2 : nat) (i n : N) :
  calculate_depth_loop fuel1 i n ≠ OutOfFuel ->
  calculate_depth_loop fuel2 i n ≠ OutOfFuel ->
  calculate_depth_loop fuel1 i n = calculate_depth_loop fuel2 i n.
Proof.
  intros H1 H2.
  rewrite <- (calculate_depth_loop_more_fuel fuel1 (fuel1 `max` fuel2))
    by (done || lia).
  rewrite <- (calculate_depth_loop_more_fuel fuel2 (fuel1 `max` fuel2))
    by (done || lia).
  done.
Qed.

Lemma Pseudo_LRUCacheInfo_more_fuel (fuel fuel' : nat) (n : N) s :
  (fuel <= fuel')%nat ->
  Pseudo_LRUCacheInfo fuel n = Ok s -> Pseudo_LRUCacheInfo fuel' n = Ok s.
Proof.
  intros Hle. unfold Pseudo_LRUCacheInfo, calculate_depth.
  destruct (calculate_depth_loop fuel 0 n) as [depth| | | |] eqn:Hdepth;
    try done.
  rewrite (calculate_depth_loop_more_fuel fuel fuel') by (done || congruence).
  by rewrite Hdepth.
Qed.

End Pseudo_LRU.

(** C5. In the pseudo LRU policy constructed with four ways, [touch( 0)]
    followed by [update] returns way 2: one of the ways 1, 2 and 3, and not
    way 0. *)
Theorem pseudo_lru_touch_then_update :
  exists s s1 s2 way,
    (forall fuel, Pseudo_LRUCacheInfo.Pseudo_LRUCacheInfo (2 + fuel) 4 = Ok s)
    ∧ Pseudo_LRUCacheInfo.touch 0 s = Ok s1
    ∧ Pseudo_LRUCacheInfo.update s1 = Ok (s2, way)
    ∧ way = 2%N ∧ way ∈ [1; 2; 3]%N ∧ way ≠ 0%N.
Proof.
  eexists _, _, _, _.
  split.
  { intros fuel. apply (Pseudo_LRUCacheInfo_more_fuel 2); [lia|].
    vm_compute. reflexivity. }
  split; [vm_compute; reflexivity|].
  split; [vm_compute; reflexivity|].
  split; [reflexivity|]. split; [|done].
  apply elem_of_cons. right. by left.
Qed.

(** C6 fails on the code: the tree built for one way is the root alone,
    which holds the construction id [INT8_MIN] and no way label, so [update]
    picks [std::size_t(-128)] and never returns 0. *)
Theorem pseudo_lru_one_way_update :
  exists s,
    (forall fuel, Pseudo_LRUCacheInfo.Pseudo_LRUCacheInfo fuel 1 = Ok s)
    ∧ Pseudo_LRUCacheInfo.children (Pseudo_LRUCacheInfo.lru_tree s) = []
    ∧ Pseudo_LRUCacheInfo.victim s = Ok (2 ^ 64 - 128)%N
    ∧ forall s', Pseudo_LRUCacheInfo.update s ≠ Ok (s', 0%N).
Proof.
  eexists.
  split; [intros [|fuel]; vm_compute; reflexivity|].
  split; [reflexivity|]. split; [reflexivity|].
  intros s' Hupd. vm_compute in Hupd. discriminate.
Qed.

(** C7. For every [ways >= 1] the construction of the pseudo LRU policy
    ends: it throws if and only if [ways] is not a power of two, and it
    returns a policy if and only if [ways] is one.  In particular it throws
    for three ways and returns for four and for eight. *)
Theorem pseudo_lru_construction_power_of_two (n : N) :
  (1 <= n)%N ->
  (exists fuel,
     (exists s, Pseudo_LRUCacheInfo.Pseudo_LRUCacheInfo fuel n = Ok s)
     ∨ (exists what,
          Pseudo_LRUCacheInfo.Pseudo_LRUCacheInfo fuel n = Throw what))
  ∧ ((exists fuel what,
        Pseudo_LRUCacheInfo.Pseudo_LRUCacheInfo fuel n = Throw what)
     <-> ¬ is_power_of_two n)
  ∧ ((exists fuel s, Pseudo_LRUCacheInfo.Pseudo_LRUCacheInfo fuel n = Ok s)
     <-> is_power_of_two n)
  ∧ (exists what,
       Pseudo_LRUCacheInfo.Pseudo_LRUCacheInfo 1 3 = Throw what)
  ∧ (exists s, Pseudo_LRUCacheInfo.Pseudo_LRUCacheInfo 2 4 = Ok s)
  ∧ (exists s, Pseudo_LRUCacheInfo.Pseudo_LRUCacheInfo 3 8 = Ok s).
Proof.
  intros Hn.
  destruct (calculate_depth_loop_ends n Hn 0%N) as [fuel0 Hends].
  fold (Pseudo_LRUCacheInfo.calculate_depth fuel0 n) in Hends.
  assert (forall fuel r,
            Pseudo_LRUCacheInfo.calculate_depth fuel n = r -> r ≠ OutOfFuel ->
            Pseudo_LRUCacheInfo.calculate_depth fuel0 n = r) as Hsame.
  { intros fuel r <- Hr. apply calculate_depth_loop_deterministic; [|done].
    unfold Pseudo_LRUCacheInfo.calculate_depth in Hends.
    destruct Hends as [[_ [d ->]]|[_ ->]]; done. }
  repeat split.
  - exists fuel0. destruct Hends as [[_ [d Hd]]|[_ Hthrow]].
    + left. by apply Pseudo_LRUCacheInfo_of_depth in Hd.
    + right. eexists. by apply Pseudo_LRUCacheInfo_Throw.
  - intros (fuel & what & Hthrow) Hpow.
    apply Pseudo_LRUCacheInfo_Throw in Hthrow.
    apply Hsame in Hthrow; [|done].
    destruct Hends as [[_ [d Hd]]|[Hnot _]]; [congruence | done].
  - intros Hnot. destruct Hends as [[Hpow _]|[_ Hthrow]]; [done|].
    exists fuel0. eexists. by apply Pseudo_LRUCacheInfo_Throw.
  - intros (fuel & s & Hs). apply Pseudo_LRUCacheInfo_Ok in Hs as [d Hd].
    apply Hsame in Hd; [|done].
    destruct Hends as [[Hpow _]|[_ Hthrow]]; [done | congruence].
  - intros Hpow. destruct Hends as [[_ [d Hd]]|[Hnot _]]; [|done].
    exists fuel0. by apply Pseudo_LRUCacheInfo_of_depth in Hd.
  - eexists. vm_compute. reflexivity.
  - eexists. vm_compute. reflexivity.
  - eexists. vm_compute. reflexivity.
Qed.

Lemma pseudo_lru_construction_power_of_two_witness :
  (1 <= 3)%N
  ∧ (exists fuel,
       (exists s, Pseudo_LRUCacheInfo.Pseudo_LRUCacheInfo fuel 3 = Ok s)
       ∨ (exists what,
            Pseudo_LRUCacheInfo.Pseudo_LRUCacheInfo fuel 3 = Throw what))
  ∧ ((exists fuel what,
        Pseudo_LRUCacheInfo.Pseudo_LRUCacheInfo fuel 3 = Throw what)
     <-> ¬ is_power_of_two 3)
  ∧ ((exists fuel s, Pseudo_LRUCacheInfo.Pseudo_LRUCacheInfo fuel 3 = Ok s)
     <-> is_power_of_two 3)
  ∧ (exists what,
       Pseudo_LRUCacheInfo.Pseudo_LRUCacheInfo 1 3 = Throw what)
  ∧ (exists s, Pseudo_LRUCacheInfo.Pseudo_LRUCacheInfo 2 4 = Ok s)
  ∧ (exists s, Pseudo_LRUCacheInfo.Pseudo_LRUCacheInfo 3 8 = Ok s).
Proof.
  split; [lia|].
  apply (pseudo_lru_construction_power_of_two 3). lia.
Defined.

(** C8 fails on the code: with no ways the construction of the pseudo LRU
    policy never leaves the loop of [calculate_depth], whatever fuel it is
    given, and the construction of the exact LRU policy stops on its
    [assert]; neither throws. *)
Theorem create_with_no_ways :
  (forall fuel, create_cache_replacement fuel "Pseudo-LRU" 0 = OutOfFuel)
  ∧ (forall fuel, create_cache_replacement fuel "LRU" 0 = AssertFail).
Proof.
  split; intros fuel; [|reflexivity].
  unfold create_cache_replacement. simpl.
  unfold Pseudo_LRUCacheInfo.Pseudo_LRUCacheInfo,
    Pseudo_LRUCacheInfo.calculate_depth.
  by rewrite calculate_depth_loop_zero.
Qed.


(** C9 fails on the code: the message for an unknown name lists [LRU] and
    [pseudo-LRU]; the recognised name [Pseudo-LRU] does not occur in it,
    and the listed [pseudo-LRU] is itself rejected as unknown. *)
Theorem create_bogus_message :
  exists what,
    create_cache_replacement 0 "bogus" 4 = Throw what
    ∧ what = not_defined_message "bogus"
    ∧ occurs_in "LRU" what = true
    ∧ occurs_in "pseudo-LRU" what = true
    ∧ occurs_in "Pseudo-LRU" what = false
    ∧ create_cache_replacement 0 "pseudo-LRU" 4
      = Throw (not_defined_message "pseudo-LRU").
Proof.
  eexists. split; [reflexivity|]. repeat split; reflexivity.
Qed.

(** C10. For the unsigned type of any number of bytes and any of its
    values, packing the bytes that unpacking produced gives the value back,
    in little endian and in big endian order. *)
Theorem pack_unpack_round_trip (bytewidth : nat) (v : Z) :
  0 <= v < 2 ^ Endian.bitwidth bytewidth ->
  Endian.pack_array_le bytewidth (Endian.unpack_array_le bytewidth v) = v
  ∧ Endian.pack_array_be bytewidth (Endian.unpack_array_be bytewidth v) = v.
Proof.
  intros Hv. split; [by apply pack_unpack_le | by apply pack_unpack_be].
Qed.

Lemma pack_unpack_round_trip_witness :
  0 <= 287454020 < 2 ^ Endian.bitwidth 4
  ∧ Endian.pack_array_le 4 (Endian.unpack_array_le 4 287454020) = 287454020
  ∧ Endian.pack_array_be 4 (Endian.unpack_array_be 4 287454020) = 287454020.
Proof.
  assert (0 <= 287454020 < 2 ^ Endian.bitwidth 4) as Hv
    by (vm_compute; split; [discriminate | reflexivity]).
  split; [exact Hv | exact (pack_unpack_round_trip 4 287454020 Hv)].
Defined.

(** * Further properties of the code *)

(** ** endian.h: unpacking what was packed, and the two byte orders *)

Section Byte_arrays.

Variable bytewidth : nat.

Abbreviation width_bits := (Endian.bitwidth bytewidth).

Lemma byte_high_bit (b m : Z) : 0 <= b < 2 ^ 8 -> 8 <= m -> Z.testbit b m = false.
Proof.
  intros Hb Hm. rewrite <- (Z.mod_small b (2 ^ 8)) by done.
  apply Z.mod_pow2_bits_high. lia.
Qed.

(** A byte moved to the position [shift] of a value of type [T]. *)
Lemma placed_byte_bit (b : Z) (shift : nat) (j : Z) :
  0 <= b < 2 ^ 8 -> (shift + 8 <= bytewidth * 8)%nat -> 0 <= j ->
  Z.testbit (Z.shiftl (Endian.unsign_t bytewidth b) (Z.of_nat shift)) j
  = (Z.of_nat shift <=? j) && (j <? Z.of_nat shift + 8)
    && Z.testbit b (j - Z.of_nat shift).
Proof.
  intros Hb Hs Hj. unfold Endian.unsign_t, Endian.to_T.
  rewrite Z.mod_small.
  2:{ split; [lia|]. apply Z.lt_le_trans with (2 ^ 8); [lia|].
      apply Z.pow_le_mono_r; [lia|].
      unfold Endian.bitwidth, Endian.CHAR_BIT. lia. }
  destruct (Z.leb_spec (Z.of_nat shift) j) as [Hle|Hlt]; simpl.
  - rewrite Z.shiftl_spec by done.
    destruct (Z.ltb_spec j (Z.of_nat shift + 8)); simpl; [done|].
    apply byte_high_bit; [done | lia].
  - by rewrite Z.shiftl_spec_low.
Qed.

Lemma byte_at_index (array : list Z) (i : nat) :
  Forall (fun b => 0 <= b < 2 ^ 8) array -> (i < length array)%nat ->
  0 <= Endian.at_index array i < 2 ^ 8.
Proof.
  intros Hall Hi. unfold Endian.at_index.
  destruct (lookup_lt_is_Some_2 array i Hi) as [b Hb].
  rewrite (nth_lookup_Some _ _ _ _ Hb).
  by apply (Forall_lookup_1 _ _ _ _ Hall Hb).
Qed.

(** The bits of a packed array: byte [i] sits at the bits [8i .. 8i+7]. *)
Lemma pack_array_le_bits (array : list Z) :
  length array = bytewidth -> Forall (fun b => 0 <= b < 2 ^ 8) array ->
  (forall (i : nat) b, (i < bytewidth)%nat -> 0 <= b < 8 ->
     Z.testbit (Endian.pack_array_le bytewidth array) (Z.of_nat (8 * i) + b)
     = Z.testbit (Endian.at_index array i) b).
Proof.
  intros Hlen Hall. unfold Endian.pack_array_le. rewrite Hlen.
  pose (P := fun (k : nat) (value : Z) =>
    (forall (i : nat) b, (i < k)%nat -> 0 <= b < 8 ->
       Z.testbit value (Z.of_nat (8 * i) + b)
       = Z.testbit (Endian.at_index array i) b)
    ∧ (forall j, Z.of_nat (8 * k) <= j -> Z.testbit value j = false)).
  match goal with |- forall i b, _ -> _ -> Z.testbit ?v _ = _ =>
    assert (H : P (0 + bytewidth)%nat v) end.
  { apply for_upto_invariant.
    - split; [intros; lia | intros; apply Z.testbit_0_l].
    - intros k value Hk [IH1 IH2].
      assert (0 <= Endian.at_index array k < 2 ^ 8) as Hbyte
        by (apply byte_at_index; [done | lia]).
      split.
      + intros i b Hi Hb. unfold Endian.to_T.
        rewrite Z.testbit_mod_pow2 by apply bits_nonneg.
        rewrite Z.lor_spec.
        rewrite placed_byte_bit
          by (try done; unfold Endian.CHAR_BIT; lia).
        unfold Endian.bitwidth, Endian.CHAR_BIT.
        destruct (decide (i = k)) as [->|Hne].
        * rewrite IH2 by lia.
          replace (Z.of_nat (8 * k) + b - Z.of_nat (k * 8)) with b by lia.
          destruct (Z.ltb_spec (Z.of_nat (8 * k) + b)
                      (Z.of_nat (bytewidth * 8))); [|lia].
          destruct (Z.leb_spec (Z.of_nat (k * 8)) (Z.of_nat (8 * k) + b));
            [|lia].
          destruct (Z.ltb_spec (Z.of_nat (8 * k) + b) (Z.of_nat (k * 8) + 8));
            [done | lia].
        * rewrite IH1 by (done || lia).
          destruct (Z.ltb_spec (Z.of_nat (8 * i) + b)
                      (Z.of_nat (bytewidth * 8))); [|lia].
          destruct (Z.leb_spec (Z.of_nat (k * 8)) (Z.of_nat (8 * i) + b));
            [lia|]. simpl. by rewrite orb_false_r.
      + intros j Hj. unfold Endian.to_T.
        rewrite Z.testbit_mod_pow2 by apply bits_nonneg.
        rewrite Z.lor_spec, IH2 by lia.
        rewrite placed_byte_bit
          by (try done; unfold Endian.CHAR_BIT; lia).
        destruct (Z.ltb_spec j (Z.of_nat (k * Endian.CHAR_BIT) + 8));
          [unfold Endian.CHAR_BIT in *; lia|].
        by rewrite andb_false_r, andb_false_r. }
  destruct H as [H _]. intros i b Hi Hb. apply H; [lia | done].
Qed.

Lemma pack_array_be_bits (array : list Z) :
  length array = bytewidth -> Forall (fun b => 0 <= b < 2 ^ 8) array ->
  (forall (i : nat) b, (i < bytewidth)%nat -> 0 <= b < 8 ->
     Z.testbit (Endian.pack_array_be bytewidth array)
       (Z.of_nat (8 * (bytewidth - i - 1)) + b)
     = Z.testbit (Endian.at_index array i) b).
Proof.
  intros Hlen Hall. unfold Endian.pack_array_be. rewrite Hlen.
  pose (P := fun (k : nat) (value : Z) =>
    (forall (i : nat) b, (i < k)%nat -> 0 <= b < 8 ->
       Z.testbit value (Z.of_nat (8 * (bytewidth - i - 1)) + b)
       = Z.testbit (Endian.at_index array i) b)
    ∧ (forall j, j < Z.of_nat (8 * (bytewidth - k)) ->
         Z.testbit value j = false)).
  match goal with |- forall i b, _ -> _ -> Z.testbit ?v _ = _ =>
    assert (H : P (0 + bytewidth)%nat v) end.
  { apply for_upto_invariant.
    - split; [intros; lia | intros; apply Z.testbit_0_l].
    - intros k value Hk [IH1 IH2].
      assert (0 <= Endian.at_index array k < 2 ^ 8) as Hbyte
        by (apply byte_at_index; [done | lia]).
      split.
      + intros i b Hi Hb. unfold Endian.to_T.
        rewrite Z.testbit_mod_pow2 by apply bits_nonneg.
        rewrite Z.lor_spec.
        rewrite placed_byte_bit
          by (try done; unfold Endian.CHAR_BIT; lia).
        unfold Endian.bitwidth, Endian.CHAR_BIT.
        destruct (decide (i = k)) as [->|Hne].
        * rewrite IH2 by lia.
          replace (Z.of_nat (8 * (bytewidth - k - 1)) + b
                   - Z.of_nat ((bytewidth - k - 1) * 8)) with b by lia.
          destruct (Z.ltb_spec (Z.of_nat (8 * (bytewidth - k - 1)) + b)
                      (Z.of_nat (bytewidth * 8))); [|lia].
          destruct (Z.leb_spec (Z.of_nat ((bytewidth - k - 1) * 8))
                      (Z.of_nat (8 * (bytewidth - k - 1)) + b)); [|lia].
          destruct (Z.ltb_spec (Z.of_nat (8 * (bytewidth - k - 1)) + b)
                      (Z.of_nat ((bytewidth - k - 1) * 8) + 8));
            [done | lia].
        * rewrite IH1 by (done || lia).
          destruct (Z.ltb_spec (Z.of_nat (8 * (bytewidth - i - 1)) + b)
                      (Z.of_nat (bytewidth * 8))); [|lia].
          destruct (Z.ltb_spec (Z.of_nat (8 * (bytewidth - i - 1)) + b)
                      (Z.of_nat ((bytewidth - k - 1) * 8) + 8));
            [lia|]. simpl. by rewrite andb_false_r, orb_false_r.
      + intros j Hj. unfold Endian.to_T.
        rewrite Z.testbit_mod_pow2 by apply bits_nonneg.
        rewrite Z.lor_spec, IH2 by lia.
        destruct (Z.le_gt_cases 0 j) as [Hj0|Hj0].
        * rewrite placed_byte_bit
            by (try done; unfold Endian.CHAR_BIT; lia).
          destruct (Z.leb_spec (Z.of_nat ((bytewidth - k - 1)
                                          * Endian.CHAR_BIT)) j);
            [unfold Endian.CHAR_BIT in *; lia|].
          by rewrite andb_false_r.
        * rewrite (Z.testbit_neg_r _ j) by done. by rewrite andb_false_r. }
  destruct H as [H _]. intros i b Hi Hb. apply H; [lia | done].
Qed.

Lemma byte_of_bits (v a : Z) (shift : nat) :
  0 <= a < 2 ^ 8 ->
  (forall b, 0 <= b < 8 ->
     Z.testbit v (Z.of_nat shift + b) = Z.testbit a b) ->
  Endian.Byte (Z.shiftr v (Z.of_nat shift)) = a.
Proof.
  intros Ha Hbits. unfold Endian.Byte. apply Z.bits_inj'. intros b Hb.
  rewrite Z.testbit_mod_pow2 by lia.
  destruct (Z.ltb_spec b 8); simpl.
  - rewrite Z.shiftr_spec by done. rewrite Z.add_comm. apply Hbits. lia.
  - symmetry. by apply byte_high_bit.
Qed.

Lemma unpack_pack_le (array : list Z) :
  length array = bytewidth -> Forall (fun b => 0 <= b < 2 ^ 8) array ->
  Endian.unpack_array_le bytewidth (Endian.pack_array_le bytewidth array)
  = array.
Proof.
  intros Hlen Hall.
  destruct (unpack_array_le_spec bytewidth
              (Endian.pack_array_le bytewidth array)) as [Hlen' Hnth].
  apply (nth_ext _ _ 0 0); [congruence|].
  intros i Hi. rewrite Hlen' in Hi.
  fold (Endian.at_index
          (Endian.unpack_array_le bytewidth
             (Endian.pack_array_le bytewidth array)) i).
  fold (Endian.at_index array i).
  rewrite Hnth by done. apply byte_of_bits.
  - apply byte_at_index; [done | lia].
  - intros b Hb. unfold Endian.CHAR_BIT.
    replace (i * 8)%nat with (8 * i)%nat by lia.
    by apply pack_array_le_bits.
Qed.

Lemma unpack_pack_be (array : list Z) :
  length array = bytewidth -> Forall (fun b => 0 <= b < 2 ^ 8) array ->
  Endian.unpack_array_be bytewidth (Endian.pack_array_be bytewidth array)
  = array.
Proof.
  intros Hlen Hall.
  destruct (unpack_array_be_spec bytewidth
              (Endian.pack_array_be bytewidth array)) as [Hlen' Hnth].
  apply (nth_ext _ _ 0 0); [congruence|].
  intros i Hi. rewrite Hlen' in Hi.
  fold (Endian.at_index
          (Endian.unpack_array_be bytewidth
             (Endian.pack_array_be bytewidth array)) i).
  fold (Endian.at_index array i).
  rewrite Hnth by done. apply byte_of_bits.
  - apply byte_at_index; [done | lia].
  - intros b Hb. unfold Endian.CHAR_BIT.
    replace ((bytewidth - i - 1) * 8)%nat
      with (8 * (bytewidth - i - 1))%nat by lia.
    by apply pack_array_be_bits.
Qed.



Lemma to_T_range (z : Z) : 0 <= Endian.to_T bytewidth z < 2 ^ width_bits.
Proof.
  unfold Endian.to_T. apply Z.mod_pos_bound.
  apply Z.pow_pos_nonneg; [lia | apply bits_nonneg].
Qed.

Lemma pack_array_range (array : list Z) :
  0 <= Endian.pack_array_le bytewidth array < 2 ^ width_bits
  ∧ 0 <= Endian.pack_array_be bytewidth array < 2 ^ width_bits.
Proof.
  assert (0 <= 0 < 2 ^ width_bits) as Hzero.
  { split; [lia|]. apply Z.pow_pos_nonneg; [lia | apply bits_nonneg]. }
  unfold Endian.pack_array_le, Endian.pack_array_be.
  split.
  - apply (for_upto_invariant (fun _ value => 0 <= value < 2 ^ width_bits));
      [done|]. intros. apply to_T_range.
  - apply (for_upto_invariant (fun _ value => 0 <= value < 2 ^ width_bits));
      [done|]. intros. apply to_T_range.
Qed.

(** The big endian array is the little endian array read backwards. *)
Lemma unpack_array_be_rev (v : Z) :
  Endian.unpack_array_be bytewidth v
  = rev (Endian.unpack_array_le bytewidth v).
Proof.
  destruct (unpack_array_le_spec bytewidth v) as [Hlen_le Hle].
  destruct (unpack_array_be_spec bytewidth v) as [Hlen_be Hbe].
  apply (nth_ext _ _ 0 0); [by rewrite length_rev, Hlen_le, Hlen_be|].
  intros i Hi. rewrite Hlen_be in Hi.
  rewrite rev_nth by (rewrite Hlen_le; done). rewrite Hlen_le.
  fold (Endian.at_index (Endian.unpack_array_be bytewidth v) i).
  fold (Endian.at_index (Endian.unpack_array_le bytewidth v)
          (bytewidth - Datatypes.S i)).
  rewrite Hbe, Hle by lia. do 4 f_equal. lia.
Qed.

Lemma pack_array_be_rev (array : list Z) :
  length array = bytewidth -> Forall (fun b => 0 <= b < 2 ^ 8) array ->
  Endian.pack_array_be bytewidth array
  = Endian.pack_array_le bytewidth (rev array).
Proof.
  intros Hlen Hall.
  set (v := Endian.pack_array_le bytewidth (rev array)).
  assert (Endian.unpack_array_be bytewidth v = array) as Hunpack.
  { rewrite unpack_array_be_rev. unfold v.
    rewrite unpack_pack_le.
    - apply rev_involutive.
    - by rewrite length_rev.
    - by rewrite <- Permutation_rev. }
  rewrite <- Hunpack at 1. apply pack_unpack_be.
  apply pack_array_range.
Qed.

End Byte_arrays.

(** X1. For every array of [bytewidth<T>] bytes, unpacking the value that
    packing produced gives the array back, in little endian and in big
    endian order. *)
Theorem unpack_pack_round_trip (bytewidth : nat) (array : list Z) :
  length array = bytewidth ->
  Forall (fun b => 0 <= b < 2 ^ 8) array ->
  Endian.unpack_array_le bytewidth (Endian.pack_array_le bytewidth array)
  = array
  ∧ Endian.unpack_array_be bytewidth (Endian.pack_array_be bytewidth array)
    = array.
Proof.
  intros Hlen Hall.
  split; [by apply unpack_pack_le | by apply unpack_pack_be].
Qed.

Lemma unpack_pack_round_trip_witness :
  length [17; 34; 51; 255] = 4%nat
  ∧ Forall (fun b => 0 <= b < 2 ^ 8) [17; 34; 51; 255]
  ∧ Endian.unpack_array_le 4 (Endian.pack_array_le 4 [17; 34; 51; 255])
    = [17; 34; 51; 255]
  ∧ Endian.unpack_array_be 4 (Endian.pack_array_be 4 [17; 34; 51; 255])
    = [17; 34; 51; 255].
Proof.
  assert (Forall (fun b => 0 <= b < 2 ^ 8) [17; 34; 51; 255]) as Hall
    by (repeat constructor; lia).
  split; [reflexivity|]. split; [exact Hall|].
  exact (unpack_pack_round_trip 4 [17; 34; 51; 255] eq_refl Hall).
Defined.

(** X2. The big endian array of a value is its little endian array read
    backwards, for every value and every width. *)
Theorem unpack_array_byte_orders (bytewidth : nat) (v : Z) :
  Endian.unpack_array_be bytewidth v
  = rev (Endian.unpack_array_le bytewidth v).
Proof. apply unpack_array_be_rev. Qed.

(** X3. Packing an array of [bytewidth<T>] bytes in big endian order gives
    the value that packing the reversed array in little endian order
    gives. *)
Theorem pack_array_byte_orders (bytewidth : nat) (array : list Z) :
  length array = bytewidth ->
  Forall (fun b => 0 <= b < 2 ^ 8) array ->
  Endian.pack_array_be bytewidth array
  = Endian.pack_array_le bytewidth (rev array).
Proof. apply pack_array_be_rev. Qed.

Lemma pack_array_byte_orders_witness :
  length [17; 34; 51; 255] = 4%nat
  ∧ Forall (fun b => 0 <= b < 2 ^ 8) [17; 34; 51; 255]
  ∧ Endian.pack_array_be 4 [17; 34; 51; 255]
    = Endian.pack_array_le 4 (rev [17; 34; 51; 255]).
Proof.
  assert (Forall (fun b => 0 <= b < 2 ^ 8) [17; 34; 51; 255]) as Hall
    by (repeat constructor; lia).
  split; [reflexivity|]. split; [exact Hall|].
  exact (pack_array_byte_orders 4 [17; 34; 51; 255] eq_refl Hall).
Defined.


(** X5. [pack_array] and [unpack_array], which choose the byte order by
    their [Endian] argument, are inverse to each other for each of the two
    orders: on the values of [T] and on the arrays of [bytewidth<T>]
    bytes. *)
Theorem pack_array_unpack_array
    (bytewidth : nat) (e : Endian.Endian) (v : Z) (array : list Z) :
  0 <= v < 2 ^ Endian.bitwidth bytewidth ->
  length array = bytewidth ->
  Forall (fun b => 0 <= b < 2 ^ 8) array ->
  Endian.pack_array bytewidth e (Endian.unpack_array bytewidth e v) = v
  ∧ Endian.unpack_array bytewidth e (Endian.pack_array bytewidth e array)
    = array.
Proof.
  intros Hv Hlen Hall. destruct e; simpl.
  - split; [by apply pack_unpack_le | by apply unpack_pack_le].
  - split; [by apply pack_unpack_be | by apply unpack_pack_be].
Qed.

Lemma pack_array_unpack_array_witness :
  0 <= 4660 < 2 ^ Endian.bitwidth 2
  ∧ length [18; 52] = 2%nat
  ∧ Forall (fun b => 0 <= b < 2 ^ 8) [18; 52]
  ∧ Endian.pack_array 2 Endian.big (Endian.unpack_array 2 Endian.big 4660)
    = 4660
  ∧ Endian.unpack_array 2 Endian.big (Endian.pack_array 2 Endian.big [18; 52])
    = [18; 52].
Proof.
  assert (0 <= 4660 < 2 ^ Endian.bitwidth 2) as Hv
    by (vm_compute; split; [discriminate | reflexivity]).
  assert (Forall (fun b => 0 <= b < 2 ^ 8) [18; 52]) as Hall
    by (repeat constructor; lia).
  split; [exact Hv|]. split; [reflexivity|]. split; [exact Hall|].
  exact (pack_array_unpack_array 2 Endian.big 4660 [18; 52] Hv eq_refl Hall).
Defined.

(** ** Exact LRU: what each call does to the recency order *)

Section Exact_LRU_order.

Import LRUCacheInfo.

Implicit Types (s : t) (l : list (iterator * N)).

Lemma cells_functional l (it : iterator) (a b : N) :
  NoDup l.*1 -> (it, a) ∈ l -> (it, b) ∈ l -> a = b.
Proof.
  induction l as [|c l IH]; intros Hnd Ha Hb.
  - by apply elem_of_nil in Ha.
  - rewrite fmap_cons in Hnd. apply NoDup_cons in Hnd as [Hnotin Hnd].
    apply elem_of_cons in Ha as [<-|Ha]; apply elem_of_cons in Hb as [Hb|Hb].
    + by injection Hb.
    + exfalso. apply Hnotin. by apply (list_elem_of_fmap_2 fst) in Hb.
    + subst c. exfalso. apply Hnotin.
      by apply (list_elem_of_fmap_2 fst) in Ha.
    + by apply IH.
Qed.

Lemma cell_of_unique l (it : iterator) (way : N) :
  NoDup l.*1 -> (it, way) ∈ l -> cell_of it l = Some (it, way).
Proof.
  intros Hnd Hin. destruct (cell_of_elem _ _ _ Hin) as [[it' w] Hc].
  rewrite Hc. unfold cell_of in Hc.
  apply head_Some_elem_of, list_elem_of_filter in Hc as [Hit Hc].
  simpl in Hit. subst it'. by rewrite (cells_functional l it w way).
Qed.

Lemma unlink_ways l (it : iterator) (way : N) :
  (forall c, c ∈ l -> c.1 = it <-> c.2 = way) ->
  (unlink it l).*2 = filter (fun w => w ≠ way) l.*2.
Proof.
  unfold unlink. induction l as [|c l IH]; intros Hiff; [done|].
  rewrite fmap_cons, !filter_cons.
  assert (forall c', c' ∈ l -> c'.1 = it <-> c'.2 = way) as Hiff'
    by (intros c' Hc'; apply Hiff; by right).
  specialize (Hiff c (list_elem_of_here _ _)).
  destruct (decide (c.1 ≠ it)) as [Hne|Heq].
  - rewrite decide_True by (intros Hw; apply Hne; by apply Hiff).
    rewrite fmap_cons. f_equal. by apply IH.
  - rewrite decide_False; [by apply IH|].
    intros Hw. apply Hw. apply Hiff. by destruct (decide (c.1 = it)).
Qed.

Lemma well_formed_cell_way s (it : iterator) (way : N) :
  well_formed s -> lru_hash s !! way = Some it ->
  forall c, c ∈ lru_list s -> c.1 = it <-> c.2 = way.
Proof.
  intros Hwf Hit [it' w] Hc. simpl. split.
  - intros ->. apply (cells_functional (lru_list s) it); try done.
    + apply (wf_cells _ Hwf).
    + by apply (wf_hash _ Hwf).
  - intros ->. apply (wf_hash _ Hwf) in Hc. congruence.
Qed.

Lemma tracked_order s (way : N) :
  well_formed s -> tracked way s <-> way ∈ order s.
Proof.
  intros Hwf. unfold tracked, order. split.
  - intros [it Hit]. apply (wf_hash _ Hwf) in Hit.
    by apply (list_elem_of_fmap_2 snd) in Hit.
  - intros Hin. apply list_elem_of_fmap in Hin as ([it w] & -> & Hin).
    exists it. by apply (wf_hash _ Hwf).
Qed.

Lemma touch_order s (way : N) :
  well_formed s -> tracked way s ->
  exists s', touch way s = Ok s'
             ∧ order s' = way :: filter (fun w => w ≠ way) (order s)
             ∧ lru_hash s' = lru_hash s.
Proof.
  intros Hwf [it Hit]. unfold touch, splice_begin. rewrite Hit.
  rewrite (cell_of_unique _ it way);
    [|apply (wf_cells _ Hwf) | by apply (wf_hash _ Hwf)].
  eexists. split; [done|]. unfold order. simpl. split; [|done]. f_equal.
  apply unlink_ways. by apply well_formed_cell_way.
Qed.

Lemma set_to_erase_order s (way : N) :
  well_formed s -> tracked way s ->
  exists s', set_to_erase way s = Ok s'
             ∧ order s' = filter (fun w => w ≠ way) (order s) ++ [way]
             ∧ lru_hash s' = lru_hash s.
Proof.
  intros Hwf [it Hit]. unfold set_to_erase, splice_end. rewrite Hit.
  rewrite (cell_of_unique _ it way);
    [|apply (wf_cells _ Hwf) | by apply (wf_hash _ Hwf)].
  eexists. split; [done|]. unfold order. simpl. split; [|done].
  rewrite fmap_app. f_equal.
  apply unlink_ways. by apply well_formed_cell_way.
Qed.

Lemma filter_other_absent (l : list N) (x : N) :
  x ∉ l -> filter (fun w => w ≠ x) l = l.
Proof.
  induction l as [|z l IH]; intros Hnotin; [done|].
  apply not_elem_of_cons in Hnotin as [Hne Hnotin].
  rewrite filter_cons, decide_True by done. f_equal. by apply IH.
Qed.

Lemma filter_other_Permutation (l : list N) (x : N) :
  NoDup l -> x ∈ l -> x :: filter (fun w => w ≠ x) l ≡ₚ l.
Proof.
  induction l as [|y l IH]; intros Hnd Hin.
  - by apply elem_of_nil in Hin.
  - apply NoDup_cons in Hnd as [Hnotin Hnd]. rewrite filter_cons.
    apply elem_of_cons in Hin as [->|Hin].
    + rewrite decide_False by auto. by rewrite filter_other_absent.
    + rewrite decide_True by (intros ->; done).
      rewrite Permutation_swap. apply Permutation_skip. by apply IH.
Qed.

Lemma order_last s (older : list N) (x : N) :
  order s = older ++ [x] -> tail_way s = Some x.
Proof.
  unfold order, tail_way. intros Horder.
  apply fmap_app_inv in Horder as (cells & tl & Hcells & Htl & ->).
  destruct tl as [|[it w] [|? ?]]; try done. simpl in Htl.
  injection Htl as ->. by rewrite last_snoc.
Qed.

(** The ways of a reachable state end in the least recently used one. *)
Lemma reachable_order_snoc (n : N) s :
  reachable permitted_fresh n s ->
  exists (older : list N) (x : N),
    order s = older ++ [x] ∧ Datatypes.S (length older) = N.to_nat n.
Proof.
  intros (Hwf & Hfull & Hways & Hpos)%reachable_well_formed.
  unfold full in Hfull.
  assert (length (order s) = N.to_nat n) as Hlen
    by (unfold order; rewrite length_fmap; lia).
  destruct (order s) as [|x older _] using rev_ind; [simpl in Hlen; lia|].
  exists older, x. split; [done|].
  rewrite length_app in Hlen. simpl in Hlen. lia.
Qed.

Lemma reachable_mono (pre pre' : call -> t -> Prop) (n : N) s :
  (forall c s0, pre c s0 -> pre' c s0) ->
  reachable pre n s -> reachable pre' n s.
Proof.
  intros Himp. induction 1 as [s Hnew | s c s' _ IH Hpre Hrun].
  - by apply reachable_new.
  - apply (reachable_call _ _ s c); auto.
Qed.

Lemma run_ways (c : call) s s' : run c s = Ok s' -> ways s' = ways s.
Proof.
  destruct c as [way|way|way|]; simpl.
  - unfold touch, splice_begin. destruct (lru_hash s !! way); [|done].
    destruct (cell_of _ _); [|done]. by intros [= <-].
  - unfold set_to_erase, splice_end. destruct (lru_hash s !! way); [|done].
    destruct (cell_of _ _); [|done]. by intros [= <-].
  - unfold allocate, erase_lru_element.
    destruct (ways s <=? _)%N; [|by intros [= <-]].
    destruct (last (lru_list s)) as [[it w]|]; [|done]. by intros [= <-].
  - unfold update. destruct (last (lru_list s)) as [[it w]|]; [|done].
    by intros [= <-].
Qed.

Lemma reachable_get_ways (pre : call -> t -> Prop) (n : N) s :
  reachable pre n s -> get_ways s = n.
Proof.
  unfold get_ways. induction 1 as [s Hnew | s c s' _ IH Hpre Hrun].
  - destruct (decide (n = 0%N)) as [->|Hn]; [done|].
    destruct (LRUCacheInfo_new n Hn) as (s0 & Hs0 & _ & _ & Hways & _).
    congruence.
  - by rewrite (run_ways _ _ _ Hrun).
Qed.

End Exact_LRU_order.

(** X6. After [touch( way)] on a tracked way of a reachable state of an
    exact LRU policy with [n] ways, the next [n - 1] calls of [update]
    return every other tracked way exactly once and never [way]; the call
    after them returns [way]. *)
Theorem exact_lru_touch_effect (n : N) (s : LRUCacheInfo.t) (way : N) :
  LRUCacheInfo.reachable LRUCacheInfo.permitted_fresh n s ->
  LRUCacheInfo.tracked way s ->
  exists s1 s2 s3 others,
    LRUCacheInfo.touch way s = Ok s1
    ∧ LRUCacheInfo.updates (N.to_nat n - 1) s1 = Ok (s2, others)
    ∧ NoDup others
    ∧ (forall w, w ∈ others <-> LRUCacheInfo.tracked w s ∧ w ≠ way)
    ∧ LRUCacheInfo.update s2 = Ok (s3, way).
Proof.
  intros Hreach Htracked.
  destruct (reachable_well_formed n s Hreach) as (Hwf & Hfull & Hways & Hpos).
  destruct (touch_order s way Hwf Htracked) as (s1 & Hs1 & Horder1 & _).
  set (rest := filter (fun w => w ≠ way) (LRUCacheInfo.order s)) in *.
  assert (way :: rest ≡ₚ LRUCacheInfo.order s) as Hperm.
  { apply filter_other_Permutation; [apply (LRUCacheInfo.wf_ways _ Hwf)|].
    by apply tracked_order. }
  assert (length rest = (N.to_nat n - 1)%nat) as Hlen.
  { apply Permutation_length in Hperm. simpl in Hperm.
    unfold LRUCacheInfo.full, LRUCacheInfo.order in *.
    rewrite length_fmap in Hperm. lia. }
  destruct (updates_rotate rest [way] s1) as (s2 & Hs2 & Horder2); [done|].
  destruct (update_order s2 rest way Horder2) as (s3 & Hs3 & _).
  exists s1, s2, s3, (rev rest). rewrite <- Hlen.
  split; [done|]. split; [done|]. split; [|split; [|done]].
  - rewrite <- Permutation_rev. apply NoDup_filter.
    apply (LRUCacheInfo.wf_ways _ Hwf).
  - intros w. rewrite <- Permutation_rev. unfold rest.
    rewrite list_elem_of_filter, tracked_order by done. tauto.
Qed.

Lemma exact_lru_touch_effect_witness :
  LRUCacheInfo.reachable LRUCacheInfo.permitted_fresh 3
    LRUCacheInfo.three_ways
  ∧ LRUCacheInfo.tracked 1 LRUCacheInfo.three_ways
  ∧ exists s1 s2 s3 others,
    LRUCacheInfo.touch 1 LRUCacheInfo.three_ways = Ok s1
    ∧ LRUCacheInfo.updates (N.to_nat 3 - 1) s1 = Ok (s2, others)
    ∧ NoDup others
    ∧ (forall w, w ∈ others
                 <-> LRUCacheInfo.tracked w LRUCacheInfo.three_ways ∧ w ≠ 1%N)
    ∧ LRUCacheInfo.update s2 = Ok (s3, 1%N).
Proof.
  assert (LRUCacheInfo.reachable LRUCacheInfo.permitted_fresh 3
            LRUCacheInfo.three_ways) as Hreach
    by (apply LRUCacheInfo.reachable_new; vm_compute; reflexivity).
  assert (LRUCacheInfo.tracked 1 LRUCacheInfo.three_ways) as Htracked
    by (exists 1%nat; vm_compute; reflexivity).
  split; [exact Hreach|]. split; [exact Htracked|].
  exact (exact_lru_touch_effect 3 LRUCacheInfo.three_ways 1 Hreach Htracked).
Defined.

(** X7. After [set_to_erase( way)] on a tracked way of a reachable state,
    the next [update] returns [way]; the call changes no entry of the
    map. *)
Theorem exact_lru_set_to_erase_effect (n : N) (s : LRUCacheInfo.t) (way : N) :
  LRUCacheInfo.reachable LRUCacheInfo.permitted_fresh n s ->
  LRUCacheInfo.tracked way s ->
  exists s1 s2,
    LRUCacheInfo.set_to_erase way s = Ok s1
    ∧ LRUCacheInfo.lru_hash s1 = LRUCacheInfo.lru_hash s
    ∧ LRUCacheInfo.tail_way s1 = Some way
    ∧ LRUCacheInfo.update s1 = Ok (s2, way).
Proof.
  intros Hreach Htracked.
  destruct (reachable_well_formed n s Hreach) as (Hwf & _).
  destruct (set_to_erase_order s way Hwf Htracked)
    as (s1 & Hs1 & Horder1 & Hhash).
  destruct (update_order s1 _ way Horder1) as (s2 & Hs2 & _).
  exists s1, s2. repeat split; try done. by apply (order_last _ _ _ Horder1).
Qed.

Lemma exact_lru_set_to_erase_effect_witness :
  LRUCacheInfo.reachable LRUCacheInfo.permitted_fresh 3
    LRUCacheInfo.three_ways
  ∧ LRUCacheInfo.tracked 1 LRUCacheInfo.three_ways
  ∧ exists s1 s2,
    LRUCacheInfo.set_to_erase 1 LRUCacheInfo.three_ways = Ok s1
    ∧ LRUCacheInfo.lru_hash s1
      = LRUCacheInfo.lru_hash LRUCacheInfo.three_ways
    ∧ LRUCacheInfo.tail_way s1 = Some 1%N
    ∧ LRUCacheInfo.update s1 = Ok (s2, 1%N).
Proof.
  assert (LRUCacheInfo.reachable LRUCacheInfo.permitted_fresh 3
            LRUCacheInfo.three_ways) as Hreach
    by (apply LRUCacheInfo.reachable_new; vm_compute; reflexivity).
  assert (LRUCacheInfo.tracked 1 LRUCacheInfo.three_ways) as Htracked
    by (exists 1%nat; vm_compute; reflexivity).
  split; [exact Hreach|]. split; [exact Htracked|].
  exact (exact_lru_set_to_erase_effect 3 LRUCacheInfo.three_ways 1
           Hreach Htracked).
Defined.

(** X8. On a reachable state [update] returns the way at the tail of the
    list, which is tracked; afterwards that way is at the head, the other
    ways keep their order, and the same ways are tracked. *)
Theorem exact_lru_update_effect (n : N) (s : LRUCacheInfo.t) :
  LRUCacheInfo.reachable LRUCacheInfo.permitted_fresh n s ->
  exists s' way older,
    LRUCacheInfo.update s = Ok (s', way)
    ∧ LRUCacheInfo.order s = older ++ [way]
    ∧ LRUCacheInfo.order s' = way :: older
    ∧ LRUCacheInfo.tracked way s
    ∧ (forall w, LRUCacheInfo.tracked w s' <-> LRUCacheInfo.tracked w s).
Proof.
  intros Hreach.
  destruct (reachable_order_snoc n s Hreach) as (older & way & Horder & _).
  destruct (update_order s older way Horder) as (s' & Hs' & Horder').
  assert (LRUCacheInfo.reachable LRUCacheInfo.permitted_fresh n s') as Hreach'.
  { apply (LRUCacheInfo.reachable_call _ _ s LRUCacheInfo.Update);
      [done | done | simpl; by rewrite Hs']. }
  destruct (reachable_well_formed n s Hreach) as (Hwf & _).
  destruct (reachable_well_formed n s' Hreach') as (Hwf' & _).
  exists s', way, older. repeat split; try done.
  - apply tracked_order; [done|]. rewrite Horder.
    apply elem_of_app. right. by left.
  - rewrite !tracked_order, Horder, Horder' by done.
    rewrite elem_of_cons, elem_of_app, list_elem_of_singleton. tauto.
  - rewrite !tracked_order, Horder, Horder' by done.
    rewrite elem_of_cons, elem_of_app, list_elem_of_singleton. tauto.
Qed.

Lemma exact_lru_update_effect_witness :
  LRUCacheInfo.reachable LRUCacheInfo.permitted_fresh 3
    LRUCacheInfo.three_ways
  ∧ exists s' way older,
    LRUCacheInfo.update LRUCacheInfo.three_ways = Ok (s', way)
    ∧ LRUCacheInfo.order LRUCacheInfo.three_ways = older ++ [way]
    ∧ LRUCacheInfo.order s' = way :: older
    ∧ LRUCacheInfo.tracked way LRUCacheInfo.three_ways
    ∧ (forall w, LRUCacheInfo.tracked w s'
                 <-> LRUCacheInfo.tracked w LRUCacheInfo.three_ways).
Proof.
  assert (LRUCacheInfo.reachable LRUCacheInfo.permitted_fresh 3
            LRUCacheInfo.three_ways) as Hreach
    by (apply LRUCacheInfo.reachable_new; vm_compute; reflexivity).
  split; [exact Hreach|].
  exact (exact_lru_update_effect 3 LRUCacheInfo.three_ways Hreach).
Defined.

(** X9. On a reachable state [allocate( way)] with a way that is not
    tracked returns; it evicts exactly the way at the tail of the list and
    puts [way] at the head, before the remaining ways in their order. *)
Theorem exact_lru_allocate_effect (n : N) (s : LRUCacheInfo.t) (way : N) :
  LRUCacheInfo.reachable LRUCacheInfo.permitted_fresh n s ->
  ¬ LRUCacheInfo.tracked way s ->
  exists s' victim older,
    LRUCacheInfo.allocate way s = Ok s'
    ∧ LRUCacheInfo.order s = older ++ [victim]
    ∧ LRUCacheInfo.order s' = way :: older
    ∧ (forall w, LRUCacheInfo.tracked w s'
                 <-> w = way ∨ (LRUCacheInfo.tracked w s ∧ w ≠ victim)).
Proof.
  intros Hreach Hnew.
  destruct (reachable_order_snoc n s Hreach) as (older & victim & Horder & _).
  assert (LRUCacheInfo.permitted_fresh (LRUCacheInfo.Allocate way) s)
    as Hpre by (by left).
  destruct (reachable_call_returns n s _ Hreach Hpre) as [s' Hs'].
  simpl in Hs'.
  assert (LRUCacheInfo.reachable LRUCacheInfo.permitted_fresh n s') as Hreach'
    by (by apply (LRUCacheInfo.reachable_call _ _ s
                    (LRUCacheInfo.Allocate way))).
  destruct (reachable_well_formed n s Hreach) as (Hwf & Hfull & _).
  destruct (reachable_well_formed n s' Hreach') as (Hwf' & _).
  assert (LRUCacheInfo.order s' = way :: older) as Horder'.
  { revert Hs'. unfold LRUCacheInfo.allocate, LRUCacheInfo.erase_lru_element.
    replace (LRUCacheInfo.ways s
             <=? N.of_nat (size (LRUCacheInfo.lru_hash s)))%N with true.
    2:{ symmetry. apply N.leb_le.
        rewrite (LRUCacheInfo.wf_size _ Hwf).
        unfold LRUCacheInfo.full in Hfull. lia. }
    unfold LRUCacheInfo.order in Horder.
    apply fmap_app_inv in Horder as (cells & tl & Hcells & Htl & Hlist).
    destruct tl as [|[it w] [|? ?]]; try done. simpl in Htl.
    injection Htl as ->. rewrite Hlist, last_snoc, removelast_last.
    simpl. intros [= <-]. unfold LRUCacheInfo.order. simpl.
    by rewrite Hcells. }
  exists s', victim, older. repeat split; try done.
  - rewrite !tracked_order, Horder, Horder' by done.
    rewrite elem_of_cons, elem_of_app, list_elem_of_singleton.
    intros [->|Hin]; [by left|]. right. split; [by left|].
    intros ->. pose proof (LRUCacheInfo.wf_ways _ Hwf) as Hnd.
    rewrite Horder in Hnd. apply NoDup_app in Hnd as (_ & Hnd & _).
    apply (Hnd _ Hin). by left.
  - rewrite !tracked_order, Horder, Horder' by done.
    rewrite elem_of_cons, elem_of_app, list_elem_of_singleton.
    intros [->|[[Hin| ->] Hne]]; [by left | by right | done].
Qed.

Lemma exact_lru_allocate_effect_witness :
  LRUCacheInfo.reachable LRUCacheInfo.permitted_fresh 3
    LRUCacheInfo.three_ways
  ∧ ¬ LRUCacheInfo.tracked 7 LRUCacheInfo.three_ways
  ∧ exists s' victim older,
      LRUCacheInfo.allocate 7 LRUCacheInfo.three_ways = Ok s'
      ∧ LRUCacheInfo.order LRUCacheInfo.three_ways = older ++ [victim]
      ∧ LRUCacheInfo.order s' = 7%N :: older
      ∧ (forall w, LRUCacheInfo.tracked w s'
                   <-> w = 7%N
                       ∨ (LRUCacheInfo.tracked w LRUCacheInfo.three_ways
                          ∧ w ≠ victim)).
Proof.
  assert (LRUCacheInfo.reachable LRUCacheInfo.permitted_fresh 3
            LRUCacheInfo.three_ways) as Hreach
    by (apply LRUCacheInfo.reachable_new; vm_compute; reflexivity).
  assert (¬ LRUCacheInfo.tracked 7 LRUCacheInfo.three_ways) as Hnew
    by (intros [it Hit]; vm_compute in Hit; discriminate).
  split; [exact Hreach|]. split; [exact Hnew|].
  exact (exact_lru_allocate_effect 3 LRUCacheInfo.three_ways 7 Hreach Hnew).
Defined.

(** X10. [get_ways] returns the number of ways the policy was constructed
    with, after any sequence of calls that return, whatever their
    arguments. *)
Theorem exact_lru_get_ways_constant (n : N) (s : LRUCacheInfo.t) :
  LRUCacheInfo.reachable (fun _ _ => True) n s ->
  LRUCacheInfo.get_ways s = n.
Proof. apply reachable_get_ways. Qed.

Lemma exact_lru_get_ways_constant_witness :
  LRUCacheInfo.reachable (fun _ _ => True) 3 LRUCacheInfo.three_ways
  ∧ LRUCacheInfo.get_ways LRUCacheInfo.three_ways = 3%N.
Proof.
  assert (LRUCacheInfo.reachable (fun _ _ => True) 3
            LRUCacheInfo.three_ways) as Hreach
    by (apply LRUCacheInfo.reachable_new; vm_compute; reflexivity).
  split; [exact Hreach|].
  exact (exact_lru_get_ways_constant 3 LRUCacheInfo.three_ways Hreach).
Defined.

Lemma in_place_order (n : N) (s : LRUCacheInfo.t) :
  LRUCacheInfo.reachable LRUCacheInfo.permitted_in_place n s ->
  LRUCacheInfo.order s ≡ₚ N.of_nat <$> seq 0 (N.to_nat n).
Proof.
  induction 1 as [s Hnew | s c s' Hreach IH Hpre Hrun].
  - destruct (decide (n = 0%N)) as [->|Hn]; [done|].
    destruct (LRUCacheInfo_new n Hn) as (s0 & Hs0 & _ & _ & _ & Horder).
    rewrite Hs0 in Hnew. injection Hnew as <-.
    by rewrite Horder, <- Permutation_rev.
  - assert (LRUCacheInfo.reachable LRUCacheInfo.permitted_fresh n s) as Hfresh.
    { apply (reachable_mono LRUCacheInfo.permitted_in_place); [|done].
      intros [w|w|w|] s0; simpl; tauto. }
    destruct (reachable_well_formed n s Hfresh) as (Hwf & _).
    destruct c as [way|way|way|]; simpl in Hpre, Hrun; [| |done|].
    + destruct (touch_order s way Hwf Hpre) as (s1 & Hs1 & Horder1 & _).
      rewrite Hs1 in Hrun. injection Hrun as <-. rewrite Horder1, <- IH.
      apply filter_other_Permutation; [apply (LRUCacheInfo.wf_ways _ Hwf)|].
      by apply tracked_order.
    + destruct (set_to_erase_order s way Hwf Hpre) as (s1 & Hs1 & Horder1 & _).
      rewrite Hs1 in Hrun. injection Hrun as <-. rewrite Horder1, <- IH.
      etrans; [apply Permutation_app_comm|]. simpl.
      apply filter_other_Permutation; [apply (LRUCacheInfo.wf_ways _ Hwf)|].
      by apply tracked_order.
    + destruct (reachable_order_snoc n s Hfresh) as (older & x & Horder & _).
      destruct (update_order s older x Horder) as (s1 & Hs1 & Horder1).
      rewrite Hs1 in Hrun. simpl in Hrun. injection Hrun as <-.
      rewrite Horder1, <- IH, Horder.
      etrans; [|apply Permutation_app_comm]. done.
Qed.

(** X11. As long as [allocate] is not called, the tracked ways of an exact
    LRU policy with [n] ways are exactly the indices below [n], and [update]
    returns one of them. *)
Theorem exact_lru_in_place_victim_in_range (n : N) (s : LRUCacheInfo.t) :
  LRUCacheInfo.reachable LRUCacheInfo.permitted_in_place n s ->
  (forall w, LRUCacheInfo.tracked w s <-> (w < n)%N)
  ∧ exists s' way, LRUCacheInfo.update s = Ok (s', way) ∧ (way < n)%N.
Proof.
  intros Hreach. pose proof (in_place_order n s Hreach) as Hperm.
  assert (LRUCacheInfo.reachable LRUCacheInfo.permitted_fresh n s) as Hfresh.
  { apply (reachable_mono LRUCacheInfo.permitted_in_place); [|done].
    intros [w|w|w|] s0; simpl; tauto. }
  destruct (reachable_well_formed n s Hfresh) as (Hwf & _).
  assert (forall w, LRUCacheInfo.tracked w s <-> (w < n)%N) as Hrange.
  { intros w. rewrite tracked_order, Hperm by done.
    rewrite list_elem_of_fmap. split.
    - intros (i & -> & Hi). apply elem_of_seq in Hi. lia.
    - intros Hw. exists (N.to_nat w). split; [lia|].
      apply elem_of_seq. lia. }
  split; [done|].
  destruct (reachable_order_snoc n s Hfresh) as (older & x & Horder & _).
  destruct (update_order s older x Horder) as (s' & Hs' & _).
  exists s', x. split; [done|]. apply Hrange, tracked_order; [done|].
  rewrite Horder. apply elem_of_app. right. by left.
Qed.

Lemma exact_lru_in_place_victim_in_range_witness :
  LRUCacheInfo.reachable LRUCacheInfo.permitted_in_place 3
    LRUCacheInfo.three_ways
  ∧ (forall w, LRUCacheInfo.tracked w LRUCacheInfo.three_ways <-> (w < 3)%N)
  ∧ exists s' way,
      LRUCacheInfo.update LRUCacheInfo.three_ways = Ok (s', way)
      ∧ (way < 3)%N.
Proof.
  assert (LRUCacheInfo.reachable LRUCacheInfo.permitted_in_place 3
            LRUCacheInfo.three_ways) as Hreach
    by (apply LRUCacheInfo.reachable_new; vm_compute; reflexivity).
  split; [exact Hreach|].
  exact (exact_lru_in_place_victim_in_range 3 LRUCacheInfo.three_ways Hreach).
Defined.

(** X12. From any state of an exact LRU policy, as many calls of [update] as
    the list has ways return the ways from the least to the most recently
    used and leave the recency order as it was; so does every further
    round. *)
Theorem exact_lru_update_round (s : LRUCacheInfo.t) (rounds : nat) :
  exists s',
    LRUCacheInfo.updates (rounds * length (LRUCacheInfo.order s)) s
    = Ok (s', mjoin (replicate rounds (rev (LRUCacheInfo.order s))))
    ∧ LRUCacheInfo.order s' = LRUCacheInfo.order s.
Proof. apply updates_cycle. Qed.

(** X13. On a reachable state every call whose precondition holds returns:
    [update]; [touch] and [set_to_erase] of a tracked way; [allocate] of a
    way that is not tracked or is the least recently used one.  No assertion
    fails, no iterator dangles and the list is never empty. *)
Theorem exact_lru_permitted_call_returns
    (n : N) (s : LRUCacheInfo.t) (c : LRUCacheInfo.call) :
  LRUCacheInfo.reachable LRUCacheInfo.permitted_fresh n s ->
  LRUCacheInfo.permitted_fresh c s ->
  exists s', LRUCacheInfo.run c s = Ok s'.
Proof. apply reachable_call_returns. Qed.

Lemma exact_lru_permitted_call_returns_witness :
  LRUCacheInfo.reachable LRUCacheInfo.permitted_fresh 3
    LRUCacheInfo.three_ways
  ∧ LRUCacheInfo.permitted_fresh (LRUCacheInfo.Touch 1)
      LRUCacheInfo.three_ways
  ∧ exists s',
      LRUCacheInfo.run (LRUCacheInfo.Touch 1) LRUCacheInfo.three_ways = Ok s'.
Proof.
  assert (LRUCacheInfo.reachable LRUCacheInfo.permitted_fresh 3
            LRUCacheInfo.three_ways) as Hreach
    by (apply LRUCacheInfo.reachable_new; vm_compute; reflexivity).
  assert (LRUCacheInfo.permitted_fresh (LRUCacheInfo.Touch 1)
            LRUCacheInfo.three_ways) as Hpre
    by (exists 1%nat; vm_compute; reflexivity).
  split; [exact Hreach|]. split; [exact Hpre|].
  exact (exact_lru_permitted_call_returns 3 LRUCacheInfo.three_ways
           (LRUCacheInfo.Touch 1) Hreach Hpre).
Defined.

Section Exact_LRU_twice.

Import LRUCacheInfo.

Lemma unlink_twice (l : list (iterator * N)) (it : iterator) :
  unlink it (unlink it l) = unlink it l.
Proof.
  apply unlink_absent. unfold unlink.
  intros ([it' w] & Heq & Hin)%list_elem_of_fmap.
  apply list_elem_of_filter in Hin as [Hne _]. simpl in *. congruence.
Qed.

Lemma touch_twice (s : t) (way : N) :
  well_formed s -> tracked way s ->
  exists s1, touch way s = Ok s1 ∧ touch way s1 = Ok s1.
Proof.
  intros Hwf [it Hit]. unfold touch, splice_begin. rewrite Hit.
  rewrite (cell_of_unique _ it way);
    [|apply (wf_cells _ Hwf) | by apply (wf_hash _ Hwf)].
  eexists. split; [done|]. simpl. rewrite Hit.
  unfold cell_of, unlink. rewrite !filter_cons. simpl.
  rewrite decide_True by done. rewrite decide_False by auto. simpl.
  fold (unlink it (lru_list s)). fold (unlink it (unlink it (lru_list s))).
  by rewrite unlink_twice.
Qed.

End Exact_LRU_twice.

(** X14. On a reachable state of an exact LRU policy, [touch] of a tracked
    way is idempotent: a second [touch] of the same way changes nothing. *)
Theorem exact_lru_touch_idempotent (n : N) (s : LRUCacheInfo.t) (way : N) :
  LRUCacheInfo.reachable LRUCacheInfo.permitted_fresh n s ->
  LRUCacheInfo.tracked way s ->
  exists s1,
    LRUCacheInfo.touch way s = Ok s1 ∧ LRUCacheInfo.touch way s1 = Ok s1.
Proof.
  intros Hreach Htracked.
  destruct (reachable_well_formed n s Hreach) as (Hwf & _).
  by apply touch_twice.
Qed.

Lemma exact_lru_touch_idempotent_witness :
  LRUCacheInfo.reachable LRUCacheInfo.permitted_fresh 3
    LRUCacheInfo.three_ways
  ∧ LRUCacheInfo.tracked 1 LRUCacheInfo.three_ways
  ∧ exists s1,
      LRUCacheInfo.touch 1 LRUCacheInfo.three_ways = Ok s1
      ∧ LRUCacheInfo.touch 1 s1 = Ok s1.
Proof.
  assert (LRUCacheInfo.reachable LRUCacheInfo.permitted_fresh 3
            LRUCacheInfo.three_ways) as Hreach
    by (apply LRUCacheInfo.reachable_new; vm_compute; reflexivity).
  assert (LRUCacheInfo.tracked 1 LRUCacheInfo.three_ways) as Htracked
    by (exists 1%nat; vm_compute; reflexivity).
  split; [exact Hreach|]. split; [exact Htracked|].
  exact (exact_lru_touch_idempotent 3 LRUCacheInfo.three_ways 1
           Hreach Htracked).
Defined.

(** ** Pseudo LRU: the tree that the constructor builds *)

Section Pseudo_LRU_tree.

Import Pseudo_LRUCacheInfo.

Lemma calculate_depth_loop_step (fuel : nat) (i numerator : N) :
  calculate_depth_loop (Datatypes.S fuel) i numerator
  = if (numerator =? 1)%N then Ok i
    else if negb (numerator mod 2 =? 0)%N
         then Throw "Number of ways must be the power of 2!"
         else calculate_depth_loop fuel ((i + 1) mod 2 ^ 64)%N
                                  (numerator / 2)%N.
Proof. reflexivity. Qed.

Lemma calculate_depth_loop_power (k : nat) :
  forall (fuel : nat) (i : N),
    (k <= fuel)%nat -> (i + N.of_nat k < 2 ^ 64)%N ->
    calculate_depth_loop fuel i (2 ^ N.of_nat k) = Ok (i + N.of_nat k)%N.
Proof.
  induction k as [|k IH]; intros fuel i Hfuel Hi.
  - replace (i + N.of_nat 0)%N with i by lia.
    destruct fuel; reflexivity.
  - destruct fuel as [|fuel]; [lia|].
    assert (2 ^ N.of_nat (Datatypes.S k) = 2 * 2 ^ N.of_nat k)%N as Hpow.
    { rewrite Nat2N.inj_succ. apply N.pow_succ_r'. }
    assert (0 < 2 ^ N.of_nat k)%N as Hpos by (apply N.neq_0_lt_0, N.pow_nonzero; lia).
    rewrite calculate_depth_loop_step, Hpow.
    rewrite (proj2 (N.eqb_neq _ 1%N)) by lia.
    replace ((2 * 2 ^ N.of_nat k) mod 2)%N with 0%N.
    2:{ symmetry. rewrite N.mul_comm. apply N.Div0.mod_mul. }
    simpl negb. cbv iota.
    replace (2 * 2 ^ N.of_nat k / 2)%N with (2 ^ N.of_nat k)%N.
    2:{ symmetry. rewrite N.mul_comm. apply N.div_mul. lia. }
    rewrite N.mod_small by lia.
    rewrite IH by lia. f_equal. lia.
Qed.

Lemma which_sibling_even (d : node) :
  Z.even (value d) = true -> which_sibling d = 0%N.
Proof.
  intros Heven. unfold which_sibling.
  apply Z.even_spec in Heven as [m Hm]. rewrite Hm.
  rewrite Z.mul_comm, Z.rem_mul by lia. reflexivity.
Qed.

Lemma which_sibling_odd (d : node) :
  Z.odd (value d) = true -> which_sibling d = 1%N.
Proof.
  intros Hodd. unfold which_sibling.
  destruct (Z.eqb_spec (Z.rem (value d) 2) 0) as [Hrem|_]; [|reflexivity].
  pose proof (Z.quot_rem' (value d) 2) as Hquot. rewrite Hrem in Hquot.
  apply Z.odd_spec in Hodd as [m Hm]. lia.
Qed.

Lemma odd_after_even (x : Z) : Z.even x = true -> Z.odd (x + 1) = true.
Proof. intros Heven. by rewrite Z.add_1_r, Z.odd_succ. Qed.

Lemma insert_second (first second : tree) :
  value (data first) < value (data second) ->
  insert second (insert first []) = [first; second].
Proof.
  intros Hlt. simpl. unfold node_ltb.
  by rewrite (proj2 (Z.ltb_ge _ _)) by lia.
Qed.

Lemma pow2_succ (b : nat) :
  2 ^ Z.of_nat (Datatypes.S b) = 2 * 2 ^ Z.of_nat b.
Proof. rewrite Nat2Z.inj_succ. apply Z.pow_succ_r. lia. Qed.

Lemma pow2_pos (b : nat) : 0 < 2 ^ Z.of_nat b.
Proof. apply Z.pow_pos_nonneg; lia. Qed.

(** What [construct_tree] builds below a node that is at least one level
    above the leaves. *)
Lemma construct_tree_shape (b : nat) :
  forall (d : node) (leaf_it node_it : Z),
    Z.even leaf_it = true -> Z.even node_it = true ->
    exists tr,
      construct_tree (Datatypes.S b) d (leaf_it, node_it)
      = (tr, (leaf_it + 2 ^ Z.of_nat (Datatypes.S b),
              node_it + 2 ^ Z.of_nat (Datatypes.S b) - 2))
      ∧ data tr = d
      ∧ (pointer d = 0%N ->
         shape (Datatypes.S b) leaf_it tr ∧ all_left (Datatypes.S b) tr)
      ∧ (value d < leaf_it ->
         node_it + 2 * Z.of_nat (Datatypes.S b) - 1 < leaf_it ->
         ids_low (Datatypes.S b) leaf_it tr).
Proof.
  induction b as [|b IH]; intros d leaf_it node_it Hleaf Hnode.
  - set (first := Tree {| value := leaf_it; pointer := 0 |} []).
    set (second := Tree {| value := leaf_it + 1; pointer := 0 |} []).
    exists (Tree d [first; second]). split; [|split; [done|split]].
    + change (construct_tree 1 d (leaf_it, node_it))
        with (Tree d (insert second (insert first [])),
              (leaf_it + 2, node_it)).
      rewrite insert_second by (simpl; lia).
      do 2 f_equal. f_equal. lia.
    + intros Hd. split; [|by split].
      split; [by left|]. exists first, second.
      split; [done|]. split; [by apply which_sibling_even|].
      split; [apply which_sibling_odd; simpl; by apply odd_after_even|].
      split; [done | done].
    + intros Hd _. split; [done | done].
  - set (left_d := {| value := node_it; pointer := size_t_of_int Left |}).
    set (right_d := {| value := node_it + 1; pointer := size_t_of_int Left |}).
    pose proof (pow2_succ (Datatypes.S b)) as Hpow.
    pose proof (pow2_succ b) as Hpow'.
    pose proof (pow2_pos b) as Hpos.
    destruct (IH left_d leaf_it (node_it + 2))
      as (left_t & Hleft & Hleft_d & Hleft_shape & Hleft_neg).
    { done. }
    { rewrite Z.even_add. by rewrite Hnode. }
    destruct (IH right_d (leaf_it + 2 ^ Z.of_nat (Datatypes.S b))
                (node_it + 2 + 2 ^ Z.of_nat (Datatypes.S b) - 2))
      as (right_t & Hright & Hright_d & Hright_shape & Hright_neg).
    { rewrite Z.even_add, Hleaf, Hpow', Z.even_mul. done. }
    { replace (node_it + 2 + 2 ^ Z.of_nat (Datatypes.S b) - 2)
        with (node_it + 2 ^ Z.of_nat (Datatypes.S b)) by lia.
      rewrite Z.even_add, Hnode, Hpow', Z.even_mul. done. }
    exists (Tree d [left_t; right_t]).
    split; [|split; [done|split]].
    + change (construct_tree (Datatypes.S (Datatypes.S b)) d (leaf_it, node_it))
        with (let '(left_t, counters1) :=
                construct_tree (Datatypes.S b) left_d (leaf_it, node_it + 2) in
              let '(right_t, counters2) :=
                construct_tree (Datatypes.S b) right_d counters1 in
              (Tree d (insert right_t (insert left_t [])), counters2)).
      rewrite Hleft, Hright.
      rewrite insert_second by (rewrite Hleft_d, Hright_d; simpl; lia).
      rewrite Hpow. generalize (2 ^ Z.of_nat (Datatypes.S b)). intros p.
      f_equal. f_equal; lia.
    + intros Hd. destruct (Hleft_shape eq_refl) as [Hleft_s Hleft_a].
      destruct (Hright_shape eq_refl) as [Hright_s Hright_a]. split.
      * split; [by left|]. exists left_t, right_t.
        split; [done|]. rewrite Hleft_d, Hright_d.
        split; [by apply which_sibling_even|].
        split; [apply which_sibling_odd; simpl; by apply odd_after_even|].
        done.
      * split; [done|].
        by intros c [->|[->|[]%elem_of_nil]%elem_of_cons]%elem_of_cons.
    + intros Hd Hbound. split; [done|].
      intros l r [= <- <-]. split.
      * apply Hleft_neg; simpl; lia.
      * apply Hright_neg; simpl; lia.
Qed.


(** The policy that the constructor returns for [2 ^ depth] ways. *)
Lemma Pseudo_LRUCacheInfo_power (depth fuel : nat) :
  (depth < 64)%nat -> (depth <= fuel)%nat ->
  exists s,
    Pseudo_LRUCacheInfo fuel (2 ^ N.of_nat depth) = Ok s
    ∧ ways s = (2 ^ N.of_nat depth)%N
    ∧ (depth ≠ 0%nat ->
       shape depth 0 (lru_tree s)
       ∧ all_left depth (lru_tree s)
       ∧ leaf_iterator s = 2 ^ Z.of_nat depth
       ∧ ids_low depth 0 (lru_tree s)).
Proof.
  intros Hdepth Hfuel. unfold Pseudo_LRUCacheInfo, calculate_depth.
  rewrite calculate_depth_loop_power; [|done|].
  2:{ apply N.lt_trans with 64%N; [lia | reflexivity]. }
  simpl bind. rewrite N.add_0_l, Nat2N.id.
  destruct depth as [|b].
  - simpl. eexists. split; [done|]. split; [done | done].
  - destruct (construct_tree_shape b {| value := INT8_MIN; pointer := 0 |}
                0 INT8_MIN) as (tr & -> & _ & Hshape & Hneg); [done..|].
    eexists. split; [done|]. split; [done|]. intros _. simpl.
    destruct (Hshape eq_refl) as [Hs Ha].
    split; [done|]. split; [done|]. split; [lia|].
    apply Hneg; unfold INT8_MIN; simpl value; lia.
Qed.

End Pseudo_LRU_tree.

(** ** Pseudo LRU: [touch] and [update] on the constructed tree *)

Section Pseudo_LRU_calls.

Import Pseudo_LRUCacheInfo.

Lemma shape_Tree (depth : nat) (first : Z) (tr : tree) :
  shape (Datatypes.S depth) first tr ->
  exists d l r,
    tr = Tree d [l; r]
    ∧ (pointer d = 0%N ∨ pointer d = 1%N)
    ∧ which_sibling (data l) = 0%N ∧ which_sibling (data r) = 1%N
    ∧ shape depth first l ∧ shape depth (first + 2 ^ Z.of_nat depth) r.
Proof.
  destruct tr as [d cs]. intros (Hp & l & r & Hcs & Hl & Hr & Hsl & Hsr).
  simpl in *. subst cs. by exists d, l, r.
Qed.

Lemma find_depth_two (x d : node) (l r : tree) :
  find_depth_from_root x (Tree d [l; r])
  = if node_eqb x (data l) then Some [0%nat]
    else match find_depth_from_root x l with
         | Some path => Some (0%nat :: path)
         | None =>
             if node_eqb x (data r) then Some [1%nat]
             else match find_depth_from_root x r with
                  | Some path => Some (1%nat :: path)
                  | None => None
                  end
         end.
Proof. reflexivity. Qed.

(** Where [tree_find_depth] finds a way label. *)
Lemma find_depth_shape (depth : nat) :
  forall (first : Z) (tr : tree) (w : Z) (p : N),
    shape (Datatypes.S depth) first tr ->
    ids_low (Datatypes.S depth) first tr ->
    first <= w ->
    find_depth_from_root {| value := w; pointer := p |} tr
    = if decide (w < first + 2 ^ Z.of_nat (Datatypes.S depth))
      then Some (leaf_path (Datatypes.S depth) (w - first))
      else None.
Proof.
  induction depth as [|depth IH]; intros first tr w p Hshape Hneg Hw;
    apply shape_Tree in Hshape
      as (d & l & r & -> & _ & _ & _ & Hl & Hr);
    rewrite find_depth_two; unfold node_eqb; simpl value.
  - destruct l as [dl csl], r as [dr csr]. simpl in Hl, Hr.
    destruct Hl as [-> <-], Hr as [-> Hdr]. simpl in *.
    change (2 ^ Z.of_nat 0) with 1 in *. change (2 ^ 1) with 2.
    destruct (Z.eqb_spec w (value dl)) as [->|Hne].
    + rewrite decide_True by lia. rewrite Z.sub_diag. reflexivity.
    + rewrite Hdr. destruct (Z.eqb_spec w (value dl + 1)) as [->|Hne'].
      * rewrite decide_True by lia.
        replace (value dl + 1 - value dl) with 1 by lia. reflexivity.
      * by rewrite decide_False by lia.
  - destruct Hneg as [_ Hneg].
    destruct (Hneg l r eq_refl) as [Hneg_l Hneg_r].
    pose proof (pow2_pos (Datatypes.S depth)) as Hpos.
    pose proof (pow2_succ (Datatypes.S depth)) as Hpow.
    rewrite (proj2 (Z.eqb_neq w (value (data l))))
      by (destruct Hneg_l as [? _]; lia).
    rewrite (IH first l w p) by done.
    change (leaf_path (Datatypes.S (Datatypes.S depth)) (w - first))
      with (if w - first <? 2 ^ Z.of_nat (Datatypes.S depth)
            then 0%nat :: leaf_path (Datatypes.S depth) (w - first)
            else 1%nat :: leaf_path (Datatypes.S depth)
                            (w - first - 2 ^ Z.of_nat (Datatypes.S depth))).
    destruct (decide (w < first + 2 ^ Z.of_nat (Datatypes.S depth)))
      as [Hin|Hout].
    + rewrite (proj2 (Z.ltb_lt _ _)) by lia.
      by rewrite decide_True by lia.
    + rewrite (proj2 (Z.eqb_neq w (value (data r))))
        by (destruct Hneg_r as [? _]; lia).
      rewrite (IH _ r w p) by (done || lia).
      rewrite (proj2 (Z.ltb_ge _ _)) by lia.
      rewrite Hpow. generalize dependent (2 ^ Z.of_nat (Datatypes.S depth)).
      intros q. intros.
      repeat case_decide; try lia; try done.
      do 3 f_equal. lia.
Qed.


Lemma alter_lookup_insert (f : tree -> tree) (cs : list tree) (b : nat)
    (c : tree) :
  cs !! b = Some c -> alter f b cs = <[b := f c]> cs.
Proof.
  revert b. induction cs as [|c0 cs IH]; intros [|b] Hb; try done.
  - simpl in Hb. by injection Hb as ->.
  - simpl in *. f_equal. by apply IH.
Qed.

Lemma data_at_child (j : iterator) (b : nat) (d : node) (cs : list tree)
    (c : tree) :
  cs !! b = Some c -> data_at (j ++ [b]) (Tree d cs) = data_at j c.
Proof.
  intros Hb. unfold data_at, subtree. rewrite rev_app_distr. simpl.
  by rewrite Hb.
Qed.

Lemma set_pointer_child (j : iterator) (b : nat) (p : N) (d : node)
    (cs : list tree) (c : tree) :
  cs !! b = Some c ->
  set_pointer (j ++ [b]) p (Tree d cs)
  = Tree d (<[b := set_pointer j p c]> cs).
Proof.
  intros Hb. unfold set_pointer. rewrite rev_app_distr. simpl.
  by rewrite (alter_lookup_insert _ _ _ _ Hb).
Qed.

Lemma touch_loop_cons (k : nat) (parent : iterator) (tr : tree) :
  touch_loop (k :: parent) tr
  = match data_at (k :: parent) tr, data_at parent tr with
    | Some d, Some pd =>
        touch_loop parent
          (if (which_sibling d =? pointer pd)%N
           then set_pointer parent
                  (size_t_of_int (reverse_flag (int_of_size_t (pointer pd))))
                  tr
           else tr)
    | _, _ => Undefined
    end.
Proof. reflexivity. Qed.

(** The loop of [touch] run from a node below the child [c] of a tree
    first does what it does inside [c], then the step at the root. *)
Lemma touch_loop_child (i : iterator) :
  forall (d : node) (cs : list tree) (b : nat) (c c' : tree),
    cs !! b = Some c -> touch_loop i c = Ok c' ->
    touch_loop (i ++ [b]) (Tree d cs)
    = Ok (Tree (flag_after_child d c') (<[b := c']> cs)).
Proof.
  induction i as [|k parent IH]; intros d cs b c c' Hb Hloop.
  - simpl in Hloop. injection Hloop as <-.
    change ([] ++ [b]) with ([b] : iterator). rewrite touch_loop_cons.
    pose proof (data_at_child [] b d cs c Hb) as Hchild.
    change ([] ++ [b]) with ([b] : iterator) in Hchild. rewrite Hchild.
    change (data_at [] c) with (Some (data c)).
    change (data_at [] (Tree d cs)) with (Some d).
    rewrite list_insert_id by done. unfold flag_after_child.
    destruct (which_sibling (data c) =? pointer d)%N; reflexivity.
  - change ((k :: parent) ++ [b]) with (k :: (parent ++ [b])).
    rewrite touch_loop_cons in Hloop. rewrite touch_loop_cons.
    change (k :: parent ++ [b]) with ((k :: parent) ++ [b]).
    rewrite !(data_at_child _ b d cs c Hb).
    destruct (data_at (k :: parent) c) as [dd|]; [|done].
    destruct (data_at parent c) as [pd|]; [|done].
    set (c1 := if (which_sibling dd =? pointer pd)%N
               then set_pointer parent
                      (size_t_of_int (reverse_flag (int_of_size_t (pointer pd))))
                      c
               else c) in *.
    assert ((if (which_sibling dd =? pointer pd)%N
             then set_pointer (parent ++ [b])
                    (size_t_of_int (reverse_flag (int_of_size_t (pointer pd))))
                    (Tree d cs)
             else Tree d cs) = Tree d (<[b := c1]> cs)) as ->.
    { unfold c1. destruct (which_sibling dd =? pointer pd)%N.
      - by apply set_pointer_child.
      - by rewrite list_insert_id. }
    rewrite (IH d (<[b := c1]> cs) b c1 c'); [|..|done].
    + by rewrite list_insert_insert_eq.
    + apply list_lookup_insert_eq. by apply lookup_lt_Some in Hb.
Qed.

Lemma mark_value (path : list nat) (tr : tree) :
  value (data (mark path tr)) = value (data tr).
Proof. by destruct path. Qed.

Lemma which_sibling_mark (path : list nat) (tr : tree) :
  which_sibling (data (mark path tr)) = which_sibling (data tr).
Proof. unfold which_sibling. by rewrite mark_value. Qed.

(** On the constructed tree the loop of [touch], started at the leaf
    number [offset], turns every flag on the way to the root away from that
    leaf. *)
Lemma touch_loop_mark (depth : nat) :
  forall (first : Z) (tr : tree) (offset : Z),
    shape depth first tr ->
    touch_loop (rev (leaf_path depth offset)) tr
    = Ok (mark (leaf_path depth offset) tr).
Proof.
  induction depth as [|depth IH]; intros first tr offset Hshape; [done|].
  apply shape_Tree in Hshape
    as (d & l & r & -> & Hp & Hwl & Hwr & Hl & Hr).
  simpl leaf_path. destruct (offset <? 2 ^ Z.of_nat depth).
  - change (rev (0%nat :: leaf_path depth offset))
      with (rev (leaf_path depth offset) ++ [0%nat]).
    rewrite (touch_loop_child _ d [l; r] 0 l _ eq_refl (IH _ _ _ Hl)).
    unfold flag_after_child. rewrite which_sibling_mark, Hwl.
    destruct d as [v p]. simpl in *. destruct Hp as [-> | ->]; reflexivity.
  - change (rev (1%nat :: leaf_path depth (offset - 2 ^ Z.of_nat depth)))
      with (rev (leaf_path depth (offset - 2 ^ Z.of_nat depth)) ++ [1%nat]).
    rewrite (touch_loop_child _ d [l; r] 1 r _ eq_refl (IH _ _ _ Hr)).
    unfold flag_after_child. rewrite which_sibling_mark, Hwr.
    destruct d as [v p]. simpl in *. destruct Hp as [-> | ->]; reflexivity.
Qed.

Lemma mark_shape (depth : nat) :
  forall (first : Z) (tr : tree) (offset : Z),
    shape depth first tr -> shape depth first (mark (leaf_path depth offset) tr).
Proof.
  induction depth as [|depth IH]; intros first tr offset Hshape; [done|].
  apply shape_Tree in Hshape
    as (d & l & r & -> & Hp & Hwl & Hwr & Hl & Hr).
  simpl leaf_path. destruct (offset <? 2 ^ Z.of_nat depth); simpl.
  - split; [by right|]. do 2 eexists. split; [done|].
    rewrite which_sibling_mark. repeat split; try done. by apply IH.
  - split; [by left|]. do 2 eexists. split; [done|].
    rewrite which_sibling_mark. repeat split; try done. by apply IH.
Qed.

Lemma mark_ids_low (depth : nat) :
  forall (first : Z) (tr : tree) (offset : Z),
    shape depth first tr -> ids_low depth first tr ->
    ids_low depth first (mark (leaf_path depth offset) tr).
Proof.
  induction depth as [|depth IH]; intros first tr offset Hshape Hneg; [done|].
  apply shape_Tree in Hshape
    as (d & l & r & -> & Hp & Hwl & Hwr & Hl & Hr).
  destruct Hneg as [Hd Hneg].
  destruct (Hneg l r eq_refl) as [Hneg_l Hneg_r].
  simpl leaf_path. destruct (offset <? 2 ^ Z.of_nat depth); simpl.
  - split; [done|]. intros l' r' [= <- <-]. split; [by apply IH | done].
  - split; [done|]. intros l' r' [= <- <-]. split; [done | by apply IH].
Qed.

(** Where the loop of [update] ends. *)
Lemma descend_shape (depth : nat) :
  forall (first : Z) (tr : tree) (node_it : iterator),
    shape depth first tr ->
    exists path leaf,
      descend tr node_it = Ok (rev path ++ node_it)
      ∧ subtree_from_root path tr = Some leaf
      ∧ first <= value (data leaf) < first + 2 ^ Z.of_nat depth.
Proof.
  induction depth as [|depth IH]; intros first tr node_it Hshape.
  - destruct tr as [d cs]. destruct Hshape as [Hcs Hd]. simpl in Hcs, Hd.
    subst cs. exists [], (Tree d []). simpl. split; [done|]. split; [done|].
    lia.
  - apply shape_Tree in Hshape
      as (d & l & r & -> & Hp & Hwl & Hwr & Hl & Hr).
    pose proof (pow2_pos depth) as Hpos. pose proof (pow2_succ depth) as Hpow.
    simpl descend. destruct (pointer d =? size_t_of_int Left)%N.
    + destruct (IH _ l (0%nat :: node_it) Hl) as (path & leaf & -> & Hsub & Hv).
      exists (0%nat :: path), leaf. simpl. rewrite <- app_assoc.
      split; [done|]. split; [done|]. lia.
    + destruct (IH _ r (1%nat :: node_it) Hr) as (path & leaf & -> & Hsub & Hv).
      exists (1%nat :: path), leaf. simpl. rewrite <- app_assoc.
      split; [done|]. split; [done|]. lia.
Qed.

(** With the flag of the root turned away from a leaf, the loop of
    [update] ends at another leaf. *)
Lemma descend_mark (depth : nat) (first : Z) (tr : tree) (offset : Z) :
  shape (Datatypes.S depth) first tr ->
  0 <= offset < 2 ^ Z.of_nat (Datatypes.S depth) ->
  exists path leaf,
    descend (mark (leaf_path (Datatypes.S depth) offset) tr) [] = Ok (rev path)
    ∧ subtree_from_root path (mark (leaf_path (Datatypes.S depth) offset) tr)
      = Some leaf
    ∧ first <= value (data leaf) < first + 2 ^ Z.of_nat (Datatypes.S depth)
    ∧ value (data leaf) ≠ first + offset.
Proof.
  intros Hshape Hoffset.
  apply shape_Tree in Hshape
    as (d & l & r & -> & Hp & Hwl & Hwr & Hl & Hr).
  pose proof (pow2_pos depth) as Hpos. pose proof (pow2_succ depth) as Hpow.
  simpl leaf_path. destruct (Z.ltb_spec offset (2 ^ Z.of_nat depth)).
  - destruct (descend_shape _ _ r [1%nat] Hr) as (path & leaf & Hd & Hsub & Hv).
    exists (1%nat :: path), leaf. simpl. rewrite Hd.
    split; [done|]. split; [done|]. lia.
  - destruct (descend_shape _ _ l [0%nat] Hl) as (path & leaf & Hd & Hsub & Hv).
    exists (0%nat :: path), leaf. simpl. rewrite Hd.
    split; [done|]. split; [done|]. lia.
Qed.

End Pseudo_LRU_calls.

Section Pseudo_LRU_policy.

Import Pseudo_LRUCacheInfo.

Lemma small_way_conversions (depth : nat) (way : N) :
  (depth <= 30)%nat -> (way < 2 ^ N.of_nat depth)%N ->
  0 <= Z.of_N way < 2 ^ Z.of_nat depth
  ∧ int_of_size_t way = Z.of_N way
  ∧ size_t_of_int (Z.of_N way) = way.
Proof.
  intros Hdepth Hway.
  assert (2 ^ Z.of_nat depth <= 2 ^ 30) as Hle
    by (apply Z.pow_le_mono_r; lia).
  assert (Z.of_N way < 2 ^ Z.of_nat depth) as Hlt.
  { apply N2Z.inj_lt in Hway. rewrite N2Z.inj_pow in Hway.
    by rewrite nat_N_Z in Hway. }
  change (2 ^ 30) with 1073741824 in Hle.
  change (2 ^ 32) with 4294967296. change (2 ^ 31) with 2147483648.
  change (2 ^ 64) with 18446744073709551616.
  split; [lia|]. unfold int_of_size_t, size_t_of_int.
  rewrite !Z.mod_small by lia.
  rewrite (proj2 (Z.ltb_lt _ _)) by lia. split; [done|]. apply N2Z.id.
Qed.

(** [touch] of a way of the constructed tree. *)
Lemma touch_mark (depth : nat) (s : t) (way : N) :
  (depth <= 29)%nat ->
  shape (Datatypes.S depth) 0 (lru_tree s) ->
  ids_low (Datatypes.S depth) 0 (lru_tree s) ->
  (way < 2 ^ N.of_nat (Datatypes.S depth))%N ->
  touch way s
  = Ok {| lru_tree := mark (leaf_path (Datatypes.S depth) (Z.of_N way))
                        (lru_tree s);
          ways := ways s;
          leaf_iterator := leaf_iterator s;
          node_iterator := node_iterator s |}.
Proof.
  intros Hdepth Hshape Hneg Hway.
  destruct (small_way_conversions (Datatypes.S depth) way) as (Hw & Hint & _);
    [lia | done |].
  unfold touch, tree_find_depth. rewrite Hint.
  rewrite (find_depth_shape depth 0) by (done || lia).
  rewrite decide_True by lia. rewrite Z.sub_0_r.
  change (@rev nat <$> Some (leaf_path (Datatypes.S depth) (Z.of_N way)))
    with (Some (rev (leaf_path (Datatypes.S depth) (Z.of_N way)))).
  cbv beta iota. by rewrite (touch_loop_mark _ 0).
Qed.

Lemma victim_leaf (depth : nat) (s : t) (path : list nat) (leaf : tree) :
  descend (lru_tree s) [] = Ok (rev path) ->
  subtree_from_root path (lru_tree s) = Some leaf ->
  victim s = Ok (size_t_of_int (value (data leaf))).
Proof.
  intros Hd Hsub. unfold victim, get_tree_iterator. rewrite Hd. simpl.
  unfold data_at, subtree. by rewrite rev_involutive, Hsub.
Qed.

Lemma small_label_conversion (depth : nat) (v : Z) :
  (depth <= 30)%nat -> 0 <= v < 2 ^ Z.of_nat depth ->
  (size_t_of_int v < 2 ^ N.of_nat depth)%N ∧ Z.of_N (size_t_of_int v) = v.
Proof.
  intros Hdepth Hv.
  assert (2 ^ Z.of_nat depth <= 2 ^ 30) as Hle
    by (apply Z.pow_le_mono_r; lia).
  change (2 ^ 30) with 1073741824 in Hle.
  change (2 ^ 32) with 4294967296. change (2 ^ 31) with 2147483648.
  change (2 ^ 64) with 18446744073709551616.
  unfold size_t_of_int. rewrite Z.mod_small by lia.
  rewrite Z2N.id by lia. split; [|done].
  apply N2Z.inj_lt. rewrite Z2N.id by lia.
  rewrite N2Z.inj_pow, nat_N_Z. lia.
Qed.

(** [update] on the constructed tree: it returns a way below [ways] and
    leaves the tree with the flags turned away from that way. *)
Lemma update_mark (depth : nat) (s : t) :
  (depth <= 29)%nat ->
  shape (Datatypes.S depth) 0 (lru_tree s) ->
  ids_low (Datatypes.S depth) 0 (lru_tree s) ->
  exists way,
    (way < 2 ^ N.of_nat (Datatypes.S depth))%N
    ∧ victim s = Ok way
    ∧ update s
      = Ok ({| lru_tree := mark (leaf_path (Datatypes.S depth) (Z.of_N way))
                             (lru_tree s);
               ways := ways s;
               leaf_iterator := leaf_iterator s;
               node_iterator := node_iterator s |}, way).
Proof.
  intros Hdepth Hshape Hneg.
  destruct (descend_shape _ _ _ [] Hshape) as (path & leaf & Hd & Hsub & Hv).
  rewrite app_nil_r in Hd.
  pose proof (victim_leaf depth s path leaf Hd Hsub) as Hvictim.
  destruct (small_label_conversion (Datatypes.S depth) (value (data leaf)))
    as [Hrange Hback]; [lia | lia |].
  exists (size_t_of_int (value (data leaf))).
  split; [done|]. split; [done|].
  unfold update. rewrite Hvictim. simpl bind.
  by rewrite (touch_mark depth).
Qed.

(** With the flags turned away from a way, [update] picks another one. *)
Lemma victim_after_mark (depth : nat) (s : t) (way : N) :
  (depth <= 29)%nat ->
  shape (Datatypes.S depth) 0 (lru_tree s) ->
  (way < 2 ^ N.of_nat (Datatypes.S depth))%N ->
  exists other,
    victim {| lru_tree := mark (leaf_path (Datatypes.S depth) (Z.of_N way))
                            (lru_tree s);
              ways := ways s;
              leaf_iterator := leaf_iterator s;
              node_iterator := node_iterator s |} = Ok other
    ∧ other ≠ way.
Proof.
  intros Hdepth Hshape Hway.
  destruct (small_way_conversions (Datatypes.S depth) way) as (Hw & _ & _);
    [lia | done |].
  destruct (descend_mark depth 0 (lru_tree s) (Z.of_N way) Hshape Hw)
    as (path & leaf & Hd & Hsub & Hv & Hne).
  eexists. split; [by apply (victim_leaf depth _ path leaf)|].
  destruct (small_label_conversion (Datatypes.S depth) (value (data leaf)))
    as [_ Hback]; [lia | lia |].
  intros Heq. apply Hne. rewrite <- Hback, Heq. lia.
Qed.

Lemma pseudo_run_ways (c : call) (s s' : t) : run c s = Ok s' -> ways s' = ways s.
Proof.
  assert (forall way s1, touch way s = Ok s1 -> ways s1 = ways s) as Htouch.
  { intros way s1. unfold touch.
    destruct (tree_find_depth _ _); [|done].
    destruct (touch_loop _ _); try done. by intros [= <-]. }
  destruct c as [way|]; simpl; [apply Htouch|].
  unfold update. destruct (victim s) as [way| | | |]; try done. simpl.
  destruct (touch way s) as [s1| | | |] eqn:Hs1; try done. simpl.
  intros [= <-]. by apply (Htouch way).
Qed.

Lemma reachable_ways (n : N) (s : t) : reachable n s -> ways s = n.
Proof.
  induction 1 as [fuel s Hnew | s c s' _ IH _ Hrun].
  - revert Hnew. unfold Pseudo_LRUCacheInfo.
    destruct (calculate_depth fuel n); try done. simpl.
    destruct (construct_tree _ _ _) as [tr [leaf_it node_it]].
    by intros [= <-].
  - by rewrite (pseudo_run_ways _ _ _ Hrun).
Qed.

(** Every state that is reached on a policy with [2 ^ depth] ways, for a
    depth from one to thirty, has the constructed tree, up to its flags. *)
Lemma reachable_shape (depth : nat) (s : t) :
  (depth <= 29)%nat ->
  reachable (2 ^ N.of_nat (Datatypes.S depth)) s ->
  shape (Datatypes.S depth) 0 (lru_tree s)
  ∧ ids_low (Datatypes.S depth) 0 (lru_tree s).
Proof.
  intros Hdepth.
  induction 1 as [fuel s Hnew | s c s' Hreach [Hshape Hneg] Hpre Hrun].
  - destruct (Pseudo_LRUCacheInfo_power (Datatypes.S depth)
                (Datatypes.S depth)) as (s0 & Hs0 & _ & Hs0'); [lia | lia |].
    destruct Hs0' as (Hshape & _ & _ & Hneg); [done|].
    assert (s = s0) as ->.
    { pose proof (Pseudo_LRUCacheInfo_more_fuel _
                    (fuel `max` Datatypes.S depth) _ _
                    (Nat.le_max_l _ _) Hnew) as H1.
      pose proof (Pseudo_LRUCacheInfo_more_fuel _
                    (fuel `max` Datatypes.S depth) _ _
                    (Nat.le_max_r _ _) Hs0) as H2.
      congruence. }
    by split.
  - pose proof (reachable_ways _ _ Hreach) as Hways.
    destruct c as [way|]; simpl in Hpre, Hrun.
    + rewrite Hways in Hpre.
      rewrite (touch_mark depth) in Hrun by (done || lia).
      injection Hrun as <-.
      split; [by apply (mark_shape (Datatypes.S depth))
             | by apply (mark_ids_low (Datatypes.S depth) 0)].
    + destruct (update_mark depth s) as (way & _ & _ & Hupd);
        [lia | done | done |].
      rewrite Hupd in Hrun. simpl in Hrun. injection Hrun as <-.
      split; [by apply (mark_shape (Datatypes.S depth))
             | by apply (mark_ids_low (Datatypes.S depth) 0)].
Qed.

(** The leaf that the flags of a freshly constructed tree lead to. *)
Lemma descend_all_left (depth : nat) :
  forall (first : Z) (tr : tree) (node_it : iterator),
    shape depth first tr -> all_left depth tr ->
    exists path leaf,
      descend tr node_it = Ok (rev path ++ node_it)
      ∧ subtree_from_root path tr = Some leaf
      ∧ value (data leaf) = first.
Proof.
  induction depth as [|depth IH]; intros first tr node_it Hshape Hall.
  - destruct tr as [d cs]. destruct Hshape as [Hcs Hd]. simpl in Hcs, Hd.
    subst cs. by exists [], (Tree d []).
  - apply shape_Tree in Hshape
      as (d & l & r & -> & Hp & Hwl & Hwr & Hl & Hr).
    destruct Hall as [Hd Hall]. simpl in Hd. simpl descend. rewrite Hd.
    change (0 =? size_t_of_int Left)%N with true. cbv iota.
    destruct (IH _ l (0%nat :: node_it) Hl) as (path & leaf & -> & Hsub & Hv).
    { apply Hall. by left. }
    exists (0%nat :: path), leaf. simpl. by rewrite <- app_assoc.
Qed.

End Pseudo_LRU_policy.

Section Pseudo_LRU_twice.

Import Pseudo_LRUCacheInfo.

Lemma mark_twice (path : list nat) :
  forall tr, mark path (mark path tr) = mark path tr.
Proof.
  induction path as [|b path IH]; intros tr; [done|].
  simpl. f_equal. rewrite list_alter_alter_eq.
  apply list_alter_ext; [|done]. intros c _. apply IH.
Qed.

End Pseudo_LRU_twice.

(** X15. [calculate_depth] returns the base two logarithm of a way count
    that is a power of two. *)
Theorem pseudo_lru_calculate_depth_log2 (depth fuel : nat) :
  (depth < 64)%nat -> (depth <= fuel)%nat ->
  Pseudo_LRUCacheInfo.calculate_depth fuel (2 ^ N.of_nat depth)
  = Ok (N.of_nat depth).
Proof.
  intros Hdepth Hfuel. unfold Pseudo_LRUCacheInfo.calculate_depth.
  rewrite calculate_depth_loop_power; [done | done |].
  apply N.lt_trans with 64%N; [lia | reflexivity].
Qed.

Lemma pseudo_lru_calculate_depth_log2_witness :
  (3 < 64)%nat ∧ (3 <= 5)%nat
  ∧ Pseudo_LRUCacheInfo.calculate_depth 5 (2 ^ N.of_nat 3) = Ok (N.of_nat 3).
Proof.
  split; [lia|]. split; [lia|].
  apply (pseudo_lru_calculate_depth_log2 3 5); lia.
Defined.



(** X17. For a power of two from 2 to [2 ^ 30] as the number of ways, the first [update] on the
    constructed pseudo LRU policy returns way 0. *)
Theorem pseudo_lru_first_update (depth fuel : nat) :
  (1 <= depth <= 30)%nat -> (depth <= fuel)%nat ->
  exists s s',
    Pseudo_LRUCacheInfo.Pseudo_LRUCacheInfo fuel (2 ^ N.of_nat depth) = Ok s
    ∧ Pseudo_LRUCacheInfo.update s = Ok (s', 0%N).
Proof.
  intros Hdepth Hfuel.
  destruct (Pseudo_LRUCacheInfo_power depth fuel)
    as (s & Hs & Hways & Htree); [lia | done |].
  destruct Htree as (Hshape & Hall & _ & Hneg); [lia|].
  destruct depth as [|depth]; [lia|].
  destruct (descend_all_left _ _ _ [] Hshape Hall)
    as (path & leaf & Hd & Hsub & Hv).
  rewrite app_nil_r in Hd.
  pose proof (victim_leaf depth s path leaf Hd Hsub) as Hvictim.
  rewrite Hv in Hvictim.
  destruct (update_mark depth s) as (way & _ & Hvictim' & Hupd);
    [lia | done | done |].
  rewrite Hvictim in Hvictim'. injection Hvictim' as <-.
  exists s. eexists. split; [done|]. exact Hupd.
Qed.

Lemma pseudo_lru_first_update_witness :
  (1 <= 3 <= 30)%nat ∧ (3 <= 3)%nat
  ∧ exists s s',
      Pseudo_LRUCacheInfo.Pseudo_LRUCacheInfo 3 (2 ^ N.of_nat 3) = Ok s
      ∧ Pseudo_LRUCacheInfo.update s = Ok (s', 0%N).
Proof.
  split; [lia|]. split; [lia|].
  apply (pseudo_lru_first_update 3 3); lia.
Defined.

(** X18. On every state of a pseudo LRU policy whose number of ways is
    a power of two from 2 to [2 ^ 30] and that is
    reached by [update] and by [touch] of way indices below [ways],
    [update] returns, and the way it returns is below [ways]. *)
Theorem pseudo_lru_update_in_range
    (depth : nat) (s : Pseudo_LRUCacheInfo.t) :
  (1 <= depth <= 30)%nat ->
  Pseudo_LRUCacheInfo.reachable (2 ^ N.of_nat depth) s ->
  exists s' way,
    Pseudo_LRUCacheInfo.update s = Ok (s', way)
    ∧ (way < 2 ^ N.of_nat depth)%N.
Proof.
  intros Hdepth Hreach. destruct depth as [|depth]; [lia|].
  destruct (reachable_shape depth s) as [Hshape Hneg]; [lia | done |].
  destruct (update_mark depth s) as (way & Hway & _ & Hupd);
    [lia | done | done |].
  eexists _, way. split; [exact Hupd | done].
Qed.

Lemma pseudo_lru_update_in_range_witness :
  (1 <= 2 <= 30)%nat
  ∧ Pseudo_LRUCacheInfo.reachable (2 ^ N.of_nat 2)
      Pseudo_LRUCacheInfo.four_ways
  ∧ exists s' way,
      Pseudo_LRUCacheInfo.update Pseudo_LRUCacheInfo.four_ways = Ok (s', way)
      ∧ (way < 2 ^ N.of_nat 2)%N.
Proof.
  assert (Pseudo_LRUCacheInfo.reachable (2 ^ N.of_nat 2)
            Pseudo_LRUCacheInfo.four_ways) as Hreach
    by (apply (Pseudo_LRUCacheInfo.reachable_new _ 2);
        vm_compute; reflexivity).
  split; [lia|]. split; [exact Hreach|].
  apply (pseudo_lru_update_in_range 2 _); [lia | exact Hreach].
Defined.

(** X19. On every such state, [touch] of a way index below [ways] returns,
    and the [update] that follows returns another way. *)
Theorem pseudo_lru_touched_way_is_spared
    (depth : nat) (s : Pseudo_LRUCacheInfo.t) (way : N) :
  (1 <= depth <= 30)%nat ->
  Pseudo_LRUCacheInfo.reachable (2 ^ N.of_nat depth) s ->
  (way < 2 ^ N.of_nat depth)%N ->
  exists s1 s2 other,
    Pseudo_LRUCacheInfo.touch way s = Ok s1
    ∧ Pseudo_LRUCacheInfo.update s1 = Ok (s2, other)
    ∧ other ≠ way
    ∧ (other < 2 ^ N.of_nat depth)%N.
Proof.
  intros Hdepth Hreach Hway. destruct depth as [|depth]; [lia|].
  destruct (reachable_shape depth s) as [Hshape Hneg]; [lia | done |].
  pose proof (touch_mark depth s way) as Htouch.
  rewrite Htouch by (done || lia). eexists. 
  set (s1 := {| Pseudo_LRUCacheInfo.lru_tree := _ |}).
  assert (Pseudo_LRUCacheInfo.shape (Datatypes.S depth) 0
            (Pseudo_LRUCacheInfo.lru_tree s1)) as Hshape1
    by (by apply (mark_shape (Datatypes.S depth))).
  assert (Pseudo_LRUCacheInfo.ids_low (Datatypes.S depth) 0
            (Pseudo_LRUCacheInfo.lru_tree s1)) as Hneg1
    by (by apply (mark_ids_low (Datatypes.S depth) 0)).
  destruct (update_mark depth s1) as (other & Hother & Hvictim & Hupd);
    [lia | done | done |].
  destruct (victim_after_mark depth s way) as (other' & Hvictim' & Hne);
    [lia | done | done |].
  fold s1 in Hvictim'. rewrite Hvictim in Hvictim'.
  injection Hvictim' as <-.
  eexists _, other. split; [done|]. split; [exact Hupd|]. done.
Qed.

Lemma pseudo_lru_touched_way_is_spared_witness :
  (1 <= 2 <= 30)%nat
  ∧ Pseudo_LRUCacheInfo.reachable (2 ^ N.of_nat 2)
      Pseudo_LRUCacheInfo.four_ways
  ∧ (3 < 2 ^ N.of_nat 2)%N
  ∧ exists s1 s2 other,
      Pseudo_LRUCacheInfo.touch 3 Pseudo_LRUCacheInfo.four_ways = Ok s1
      ∧ Pseudo_LRUCacheInfo.update s1 = Ok (s2, other)
      ∧ other ≠ 3%N
      ∧ (other < 2 ^ N.of_nat 2)%N.
Proof.
  assert (Pseudo_LRUCacheInfo.reachable (2 ^ N.of_nat 2)
            Pseudo_LRUCacheInfo.four_ways) as Hreach
    by (apply (Pseudo_LRUCacheInfo.reachable_new _ 2);
        vm_compute; reflexivity).
  assert (3 < 2 ^ N.of_nat 2)%N as Hway by (vm_compute; reflexivity).
  split; [lia|]. split; [exact Hreach|]. split; [exact Hway|].
  apply (pseudo_lru_touched_way_is_spared 2 _ 3);
    [lia | exact Hreach | exact Hway].
Defined.

(** X20. On every such state two calls of [update] in a row return two
    different ways. *)
Theorem pseudo_lru_consecutive_updates_differ
    (depth : nat) (s : Pseudo_LRUCacheInfo.t) :
  (1 <= depth <= 30)%nat ->
  Pseudo_LRUCacheInfo.reachable (2 ^ N.of_nat depth) s ->
  exists s1 s2 first second,
    Pseudo_LRUCacheInfo.update s = Ok (s1, first)
    ∧ Pseudo_LRUCacheInfo.update s1 = Ok (s2, second)
    ∧ first ≠ second.
Proof.
  intros Hdepth Hreach. destruct depth as [|depth]; [lia|].
  destruct (reachable_shape depth s) as [Hshape Hneg]; [lia | done |].
  destruct (update_mark depth s) as (first & Hfirst & _ & Hupd);
    [lia | done | done |].
  rewrite Hupd.
  set (s1 := {| Pseudo_LRUCacheInfo.lru_tree := _ |}).
  assert (Pseudo_LRUCacheInfo.shape (Datatypes.S depth) 0
            (Pseudo_LRUCacheInfo.lru_tree s1)) as Hshape1
    by (by apply (mark_shape (Datatypes.S depth))).
  assert (Pseudo_LRUCacheInfo.ids_low (Datatypes.S depth) 0
            (Pseudo_LRUCacheInfo.lru_tree s1)) as Hneg1
    by (by apply (mark_ids_low (Datatypes.S depth) 0)).
  destruct (update_mark depth s1) as (second & _ & Hvictim & Hupd1);
    [lia | done | done |].
  destruct (victim_after_mark depth s first) as (other & Hvictim' & Hne);
    [lia | done | done |].
  fold s1 in Hvictim'. rewrite Hvictim in Hvictim'.
  injection Hvictim' as <-.
  eexists s1, _, first, second. split; [done|]. split; [exact Hupd1|]. done.
Qed.

Lemma pseudo_lru_consecutive_updates_differ_witness :
  (1 <= 2 <= 30)%nat
  ∧ Pseudo_LRUCacheInfo.reachable (2 ^ N.of_nat 2)
      Pseudo_LRUCacheInfo.four_ways
  ∧ exists s1 s2 first second,
      Pseudo_LRUCacheInfo.update Pseudo_LRUCacheInfo.four_ways
      = Ok (s1, first)
      ∧ Pseudo_LRUCacheInfo.update s1 = Ok (s2, second)
      ∧ first ≠ second.
Proof.
  assert (Pseudo_LRUCacheInfo.reachable (2 ^ N.of_nat 2)
            Pseudo_LRUCacheInfo.four_ways) as Hreach
    by (apply (Pseudo_LRUCacheInfo.reachable_new _ 2);
        vm_compute; reflexivity).
  split; [lia|]. split; [exact Hreach|].
  apply (pseudo_lru_consecutive_updates_differ 2 _); [lia | exact Hreach].
Defined.

(** X21. On every such state [touch] of a way index below [ways] is
    idempotent: a second [touch] of the same way changes nothing. *)
Theorem pseudo_lru_touch_idempotent
    (depth : nat) (s : Pseudo_LRUCacheInfo.t) (way : N) :
  (1 <= depth <= 30)%nat ->
  Pseudo_LRUCacheInfo.reachable (2 ^ N.of_nat depth) s ->
  (way < 2 ^ N.of_nat depth)%N ->
  exists s1,
    Pseudo_LRUCacheInfo.touch way s = Ok s1
    ∧ Pseudo_LRUCacheInfo.touch way s1 = Ok s1.
Proof.
  intros Hdepth Hreach Hway. destruct depth as [|depth]; [lia|].
  destruct (reachable_shape depth s) as [Hshape Hneg]; [lia | done |].
  rewrite (touch_mark depth s way) by (done || lia). eexists.
  split; [done|].
  set (s1 := {| Pseudo_LRUCacheInfo.lru_tree := _ |}).
  assert (Pseudo_LRUCacheInfo.shape (Datatypes.S depth) 0
            (Pseudo_LRUCacheInfo.lru_tree s1)) as Hshape1
    by (by apply (mark_shape (Datatypes.S depth))).
  assert (Pseudo_LRUCacheInfo.ids_low (Datatypes.S depth) 0
            (Pseudo_LRUCacheInfo.lru_tree s1)) as Hneg1
    by (by apply (mark_ids_low (Datatypes.S depth) 0)).
  rewrite (touch_mark depth s1 way) by (done || lia).
  unfold s1. cbn [Pseudo_LRUCacheInfo.lru_tree Pseudo_LRUCacheInfo.ways
                  Pseudo_LRUCacheInfo.leaf_iterator
                  Pseudo_LRUCacheInfo.node_iterator].
  by rewrite mark_twice.
Qed.

Lemma pseudo_lru_touch_idempotent_witness :
  (1 <= 2 <= 30)%nat
  ∧ Pseudo_LRUCacheInfo.reachable (2 ^ N.of_nat 2)
      Pseudo_LRUCacheInfo.four_ways
  ∧ (3 < 2 ^ N.of_nat 2)%N
  ∧ exists s1,
      Pseudo_LRUCacheInfo.touch 3 Pseudo_LRUCacheInfo.four_ways = Ok s1
      ∧ Pseudo_LRUCacheInfo.touch 3 s1 = Ok s1.
Proof.
  assert (Pseudo_LRUCacheInfo.reachable (2 ^ N.of_nat 2)
            Pseudo_LRUCacheInfo.four_ways) as Hreach
    by (apply (Pseudo_LRUCacheInfo.reachable_new _ 2);
        vm_compute; reflexivity).
  assert (3 < 2 ^ N.of_nat 2)%N as Hway by (vm_compute; reflexivity).
  split; [lia|]. split; [exact Hreach|]. split; [exact Hway|].
  apply (pseudo_lru_touch_idempotent 2 _ 3);
    [lia | exact Hreach | exact Hway].
Defined.



(** ** Pseudo LRU: a round of [update] calls *)

Section Pseudo_LRU_round.

Import Pseudo_LRUCacheInfo.

Lemma tree_update_two (depth : nat) (d : node) (l r : tree) :
  tree_update (Datatypes.S depth) (Tree d [l; r])
  = if (pointer d =? 0)%N
    then (Tree {| value := value d; pointer := 1 |}
               [(tree_update depth l).1; r], (tree_update depth l).2)
    else (Tree {| value := value d; pointer := 0 |}
               [l; (tree_update depth r).1], (tree_update depth r).2).
Proof.
  simpl. destruct (pointer d =? 0)%N.
  - by destruct (tree_update depth l).
  - by destruct (tree_update depth r).
Qed.

(** [tree_update] is what the loop of [update] and the [touch] of the way
    it ends at do together. *)
Lemma tree_update_mark (depth : nat) :
  forall (first : Z) (tr : tree) (node_it : iterator),
    shape depth first tr ->
    first <= (tree_update depth tr).2 < first + 2 ^ Z.of_nat depth
    ∧ mark (leaf_path depth ((tree_update depth tr).2 - first)) tr
      = (tree_update depth tr).1
    ∧ exists path leaf,
        descend tr node_it = Ok (rev path ++ node_it)
        ∧ subtree_from_root path tr = Some leaf
        ∧ value (data leaf) = (tree_update depth tr).2.
Proof.
  induction depth as [|depth IH]; intros first tr node_it Hshape.
  - destruct tr as [d cs]. destruct Hshape as [Hcs Hd]. simpl in Hcs, Hd.
    subst cs. simpl. split; [lia|]. split; [done|].
    by exists [], (Tree d []).
  - apply shape_Tree in Hshape
      as (d & l & r & -> & Hp & Hwl & Hwr & Hl & Hr).
    pose proof (pow2_pos depth) as Hpos. pose proof (pow2_succ depth) as Hpow.
    rewrite tree_update_two. simpl descend.
    change (size_t_of_int Left) with 0%N.
    destruct Hp as [Hp|Hp]; rewrite Hp; simpl N.eqb; cbv iota.
    + destruct (IH first l (0%nat :: node_it) Hl)
        as (Hv & Hmark & path & leaf & Hd & Hsub & Hleaf).
      simpl fst. simpl snd. split; [lia|]. split.
      * simpl leaf_path. rewrite (proj2 (Z.ltb_lt _ _)) by lia.
        simpl. by rewrite Hmark.
      * exists (0%nat :: path), leaf. rewrite Hd. simpl.
        by rewrite <- app_assoc.
    + destruct (IH (first + 2 ^ Z.of_nat depth) r (1%nat :: node_it) Hr)
        as (Hv & Hmark & path & leaf & Hd & Hsub & Hleaf).
      simpl fst. simpl snd. split; [lia|]. split.
      * simpl leaf_path. rewrite (proj2 (Z.ltb_ge _ _)) by lia.
        simpl.
        replace ((tree_update depth r).2 - first - 2 ^ Z.of_nat depth)
          with ((tree_update depth r).2 - (first + 2 ^ Z.of_nat depth))
          by lia.
        by rewrite Hmark.
      * exists (1%nat :: path), leaf. rewrite Hd. simpl.
        by rewrite <- app_assoc.
Qed.

Lemma update_tree_update (depth : nat) (s : t) :
  (depth <= 29)%nat ->
  shape (Datatypes.S depth) 0 (lru_tree s) ->
  ids_low (Datatypes.S depth) 0 (lru_tree s) ->
  update s
  = Ok (with_tree s (tree_update (Datatypes.S depth) (lru_tree s)).1,
        Z.to_N (tree_update (Datatypes.S depth) (lru_tree s)).2).
Proof.
  intros Hdepth Hshape Hlow.
  destruct (update_mark depth s Hdepth Hshape Hlow)
    as (way & Hway & Hvictim & Hupd).
  destruct (tree_update_mark _ 0 (lru_tree s) [] Hshape)
    as (Hv & Hmark & path & leaf & Hd & Hsub & Hleaf).
  remember (tree_update (Datatypes.S depth) (lru_tree s)) as res eqn:Hres.
  clear Hres. destruct res as [tr v]. simpl fst in *. simpl snd in *.
  rewrite app_nil_r in Hd.
  rewrite (victim_leaf depth s path leaf Hd Hsub), Hleaf in Hvictim.
  assert (way = size_t_of_int v) as -> by congruence.
  destruct (small_label_conversion (Datatypes.S depth) v)
    as [_ Hback]; [lia | lia |].
  rewrite Hupd. unfold with_tree.
  rewrite Hback. rewrite Z.sub_0_r in Hmark. rewrite Hmark. do 2 f_equal.
  rewrite <- Hback at 2. by rewrite N2Z.id.
Qed.

Lemma tree_updates_succ (depth count : nat) (tr : tree) :
  tree_updates depth (Datatypes.S count) tr
  = ((tree_updates depth count (tree_update depth tr).1).1,
     (tree_update depth tr).2
     :: (tree_updates depth count (tree_update depth tr).1).2).
Proof.
  simpl. destruct (tree_update depth tr) as [tr1 v]. simpl.
  by destruct (tree_updates depth count tr1).
Qed.

Lemma updates_tree_updates (depth count : nat) :
  (depth <= 29)%nat ->
  forall s,
    shape (Datatypes.S depth) 0 (lru_tree s) ->
    ids_low (Datatypes.S depth) 0 (lru_tree s) ->
    updates count s
    = Ok (with_tree s
            (tree_updates (Datatypes.S depth) count (lru_tree s)).1,
          Z.to_N <$> (tree_updates (Datatypes.S depth) count (lru_tree s)).2).
Proof.
  intros Hdepth. induction count as [|count IH]; intros s Hshape Hlow.
  - simpl. by destruct s.
  - change (updates (Datatypes.S count) s)
      with (let* (s1, way) := update s in
            let* (s2, rest) := updates count s1 in
            Ok (s2, way :: rest)).
    rewrite (update_tree_update depth s) by done. cbn [bind].
    destruct (tree_update_mark _ 0 (lru_tree s) [] Hshape)
      as (_ & Hmark & _).
    rewrite IH.
    + rewrite tree_updates_succ. done.
    + unfold with_tree. cbn [lru_tree]. rewrite <- Hmark.
      by apply (mark_shape (Datatypes.S depth)).
    + unfold with_tree. cbn [lru_tree]. rewrite <- Hmark.
      by apply (mark_ids_low (Datatypes.S depth) 0).
Qed.

(** Two calls of [update] on a tree whose root flag is [Left]: one in the
    first child, one in the second, and the flag is [Left] again. *)
Lemma tree_updates_pairs (depth : nat) (d : node) (pairs : nat) :
  pointer d = 0%N ->
  forall l r,
    tree_updates (Datatypes.S depth) (2 * pairs) (Tree d [l; r])
    = (Tree d [(tree_updates depth pairs l).1;
               (tree_updates depth pairs r).1],
       interleave (tree_updates depth pairs l).2
                  (tree_updates depth pairs r).2).
Proof.
  intros Hp. induction pairs as [|pairs IH]; intros l r; [done|].
  replace (2 * Datatypes.S pairs)%nat
    with (Datatypes.S (Datatypes.S (2 * pairs))) by lia.
  rewrite tree_updates_succ, tree_update_two, Hp.
  change (0 =? 0)%N with true. cbv iota. cbn [fst snd].
  rewrite tree_updates_succ, tree_update_two. cbn [pointer value].
  change (1 =? 0)%N with false. cbv iota. cbn [fst snd].
  replace {| value := value d; pointer := 0 |} with d
    by (destruct d; simpl in *; by subst).
  rewrite IH. by rewrite !tree_updates_succ.
Qed.

Lemma tree_updates_round (depth : nat) :
  forall (first : Z) (tr : tree),
    shape depth first tr -> all_left depth tr ->
    tree_updates depth (2 ^ depth) tr = (tr, bit_reversed depth first).
Proof.
  induction depth as [|depth IH]; intros first tr Hshape Hall.
  - destruct Hshape as [_ Hd]. simpl. by rewrite Hd.
  - apply shape_Tree in Hshape
      as (d & l & r & -> & _ & _ & _ & Hl & Hr).
    destruct Hall as [Hp Hall]. simpl in Hp.
    change (2 ^ Datatypes.S depth)%nat with (2 * 2 ^ depth)%nat.
    rewrite tree_updates_pairs by done.
    rewrite (IH first l), (IH (first + 2 ^ Z.of_nat depth) r);
      try done; apply Hall; [right | ]; by left.
Qed.

Lemma interleave_Permutation (xs : list Z) :
  forall ys, interleave xs ys ≡ₚ xs ++ ys.
Proof.
  induction xs as [|x xs IH]; intros [|y ys]; try done.
  simpl. rewrite IH. apply Permutation_skip. apply Permutation_middle.
Qed.

Lemma bit_reversed_Permutation (depth : nat) :
  forall first, bit_reversed depth first ≡ₚ seqZ first (2 ^ Z.of_nat depth).
Proof.
  induction depth as [|depth IH]; intros first; [done|].
  simpl bit_reversed. rewrite interleave_Permutation, !IH.
  pose proof (pow2_pos depth). rewrite pow2_succ.
  replace (2 * 2 ^ Z.of_nat depth)
    with (2 ^ Z.of_nat depth + 2 ^ Z.of_nat depth) by lia.
  by rewrite seqZ_app by lia.
Qed.

End Pseudo_LRU_round.

(** X23. For a way count that is a power of two from 2 to [2 ^ 30], the
    first [ways] calls of [update] on the constructed pseudo LRU policy
    return every way index below [ways] exactly once, in the order of the
    bit-reversed counter, and leave the policy as it was constructed, so
    that every further round returns the same sequence. *)
Theorem pseudo_lru_update_round (depth fuel : nat) :
  (1 <= depth <= 30)%nat -> (depth <= fuel)%nat ->
  exists s,
    Pseudo_LRUCacheInfo.Pseudo_LRUCacheInfo fuel (2 ^ N.of_nat depth) = Ok s
    ∧ Pseudo_LRUCacheInfo.updates (2 ^ depth) s
      = Ok (s, Z.to_N <$> Pseudo_LRUCacheInfo.bit_reversed depth 0)
    ∧ Pseudo_LRUCacheInfo.bit_reversed depth 0
      ≡ₚ seqZ 0 (2 ^ Z.of_nat depth).
Proof.
  intros Hdepth Hfuel.
  destruct (Pseudo_LRUCacheInfo_power depth fuel)
    as (s & Hs & Hways & Htree); [lia | done |].
  destruct Htree as (Hshape & Hall & _ & Hlow); [lia|].
  exists s. split; [done|]. split; [|apply bit_reversed_Permutation].
  destruct depth as [|depth]; [lia|].
  rewrite (updates_tree_updates depth) by (done || lia).
  rewrite (tree_updates_round _ 0) by done. simpl. by destruct s.
Qed.

Lemma pseudo_lru_update_round_witness :
  (1 <= 3 <= 30)%nat ∧ (3 <= 3)%nat
  ∧ exists s,
      Pseudo_LRUCacheInfo.Pseudo_LRUCacheInfo 3 (2 ^ N.of_nat 3) = Ok s
      ∧ Pseudo_LRUCacheInfo.updates (2 ^ 3) s
        = Ok (s, Z.to_N <$> Pseudo_LRUCacheInfo.bit_reversed 3 0)
      ∧ Pseudo_LRUCacheInfo.bit_reversed 3 0 ≡ₚ seqZ 0 (2 ^ Z.of_nat 3).
Proof.
  split; [lia|]. split; [lia|].
  apply (pseudo_lru_update_round 3 3); lia.
Defined.

(** ** The factory *)

(** X24. With a recognised name the factory returns the policy of that
    name with the requested number of ways: an exact LRU policy for any
    positive number, a pseudo LRU policy for a power of two. *)
Theorem create_recognised_names (fuel depth : nat) (n : N) :
  n ≠ 0%N -> (depth < 64)%nat -> (depth <= fuel)%nat ->
  (exists s,
     create_cache_replacement fuel "LRU" n = Ok (LRU s)
     ∧ LRUCacheInfo.LRUCacheInfo n = Ok s
     ∧ LRUCacheInfo.get_ways s = n)
  ∧ (exists s,
       create_cache_replacement fuel "Pseudo-LRU" (2 ^ N.of_nat depth)
       = Ok (Pseudo_LRU s)
       ∧ Pseudo_LRUCacheInfo.Pseudo_LRUCacheInfo fuel (2 ^ N.of_nat depth)
         = Ok s
       ∧ Pseudo_LRUCacheInfo.get_ways s = (2 ^ N.of_nat depth)%N).
Proof.
  intros Hn Hdepth Hfuel. split.
  - destruct (LRUCacheInfo_new n Hn) as (s & Hs & _ & _ & Hways & _).
    exists s. unfold create_cache_replacement. simpl. by rewrite Hs.
  - destruct (Pseudo_LRUCacheInfo_power depth fuel Hdepth Hfuel)
      as (s & Hs & Hways & _).
    exists s. unfold create_cache_replacement. simpl. by rewrite Hs.
Qed.

Lemma create_recognised_names_witness :
  3%N ≠ 0%N ∧ (2 < 64)%nat ∧ (2 <= 2)%nat
  ∧ (exists s,
       create_cache_replacement 2 "LRU" 3 = Ok (LRU s)
       ∧ LRUCacheInfo.LRUCacheInfo 3 = Ok s
       ∧ LRUCacheInfo.get_ways s = 3%N)
  ∧ (exists s,
       create_cache_replacement 2 "Pseudo-LRU" (2 ^ N.of_nat 2)
       = Ok (Pseudo_LRU s)
       ∧ Pseudo_LRUCacheInfo.Pseudo_LRUCacheInfo 2 (2 ^ N.of_nat 2) = Ok s
       ∧ Pseudo_LRUCacheInfo.get_ways s = (2 ^ N.of_nat 2)%N).
Proof.
  split; [discriminate|]. split; [lia|]. split; [lia|].
  apply (create_recognised_names 2 2 3); [discriminate | lia | lia].
Defined.

Section Messages.





End Messages.


